(** * Verification of the wallet core of unicorn-research/app

    Shallow embedding of [src/api/src/wallet]: the Note/Balance ledger
    ([balance.rs]), the transaction builder and manager
    ([transaction.rs]), the key manager ([keys.rs]) and the block,
    Merkle and difficulty code ([mod.rs]).

    Conventions:
    - a Rust [u64] / [u32] / [u8] is an [N] (or a [Z] for bytes) with its
      wrap-around written out where the code can overflow;
    - a byte buffer ([Vec<u8>], [[u8; 32]]) is a [list Z] of values in
      [0, 256);
    - a Rust [HashMap] is a stdpp [gmap];
    - SHA-256 (the [sha2] crate) is an abstract function on byte lists:
      the hash properties stated below hold for every such function;
    - [Utc::now()] is an explicit argument [now]. *)

From Stdlib Require Import ZArith NArith Lia Ascii String Sorted.
From stdpp Require Import base gmap list strings pretty.

Open Scope N_scope.

(* ================================================================== *)
(** ** Data model ([mod.rs]) *)

Definition u64_modulus : N := 2 ^ 64.

(** [a + b] on [u64] (release build: wrapping). *)
Definition u64_add (a b : N) : N := (a + b) mod u64_modulus.

(** [a.saturating_sub(b)] on [u64]: [N.sub] already truncates at 0. *)
Definition u64_saturating_sub (a b : N) : N := a - b.

(** [pub enum WalletError] *)
Inductive WalletError :=
| Crypto (msg : string)
| Storage (msg : string)
| Network (msg : string)
| InvalidAddress (msg : string)
| InsufficientFunds (required available : N)
| Transaction (msg : string)
| AuthenticationFailed
| KeyNotFound (msg : string)
| KeyExists (msg : string)
| NoDefaultKey
| Serialization (msg : string)
| BlockValidation (msg : string)
| Consensus (msg : string).

(** [WalletResult<T> = Result<T, WalletError>] *)
Inductive WalletResult (T : Type) :=
| Ok (v : T)
| Err (e : WalletError).
Arguments Ok {T} v.
Arguments Err {T} e.

(** [pub struct Address { pub public_key: [u8; 32] }] *)
Record Address := mk_Address { public_key : list Z }.

#[global] Instance Address_eq_dec : EqDecision Address.
Proof. solve_decision. Defined.

#[global] Program Instance Address_countable : Countable Address :=
  inj_countable' public_key mk_Address _.
Next Obligation. intros []; reflexivity. Qed.

(** [Address::from_public_key] *)
Definition from_public_key (pk : list Z) : Address := mk_Address pk.

(** [pub struct Balance] *)
Record Balance := mk_Balance {
  confirmed : N;
  unconfirmed : N;
  locked : N
}.

(** [Balance::new] *)
Definition Balance_new : Balance := mk_Balance 0 0 0.

(** [pub struct Note]; the [Uuid] id is its 128-bit value. *)
Record Note := mk_Note {
  note_id : N;
  note_address : Address;
  note_amount : N;
  block_height : option N;
  note_transaction_id : string;
  output_index : N;
  spent : bool;
  note_locked : bool;
  note_created_at : Z
}.

(** [note.spent = true] *)
Definition set_spent (n : Note) : Note :=
  mk_Note (note_id n) (note_address n) (note_amount n) (block_height n)
    (note_transaction_id n) (output_index n) true (note_locked n)
    (note_created_at n).

(* ================================================================== *)
(** ** The ledger ([balance.rs]) *)

(** [pub struct BalanceManager] *)
Record BalanceManager := mk_BalanceManager {
  notes : gmap N Note;
  address_balances : gmap Address Balance
}.

(** [BalanceManager::new] *)
Definition BalanceManager_new : BalanceManager := mk_BalanceManager ∅ ∅.

(** [BalanceManager::add_note]: inserts (or replaces) the note under its
    id, then adds its amount to the bucket of its address chosen by
    [block_height]; the entry is created with [Balance::new] if absent. *)
Definition add_note (bm : BalanceManager) (note : Note)
  : BalanceManager * WalletResult unit :=
  let address := note_address note in
  let amount := note_amount note in
  let notes' := <[note_id note := note]> (notes bm) in
  let balance := default Balance_new (address_balances bm !! address) in
  let balance' :=
    match block_height note with
    | Some _ => mk_Balance (u64_add (confirmed balance) amount)
                  (unconfirmed balance) (locked balance)
    | None => mk_Balance (confirmed balance)
                  (u64_add (unconfirmed balance) amount) (locked balance)
    end in
  (mk_BalanceManager notes' (<[address := balance']> (address_balances bm)),
   Ok tt).

(** [BalanceManager::spend_note].  The note is marked spent before the
    balance entry is looked up, as in the source. *)
Definition spend_note (bm : BalanceManager) (id : N)
  : BalanceManager * WalletResult unit :=
  match notes bm !! id with
  | Some note =>
      if spent note then (bm, Err (Transaction "Note already spent"))
      else
        let notes' := <[id := set_spent note]> (notes bm) in
        match address_balances bm !! note_address note with
        | None => (mk_BalanceManager notes' (address_balances bm),
                   Err (Storage "Address balance not found"))
        | Some balance =>
            let balance' :=
              match block_height note with
              | Some _ => mk_Balance
                            (u64_saturating_sub (confirmed balance) (note_amount note))
                            (unconfirmed balance) (locked balance)
              | None => mk_Balance (confirmed balance)
                            (u64_saturating_sub (unconfirmed balance) (note_amount note))
                            (locked balance)
              end in
            (mk_BalanceManager notes'
               (<[note_address note := balance']> (address_balances bm)),
             Ok tt)
        end
  | None => (bm, Err (KeyNotFound "Note not found"))
  end.

(** [BalanceManager::get_balance] *)
Definition get_balance (bm : BalanceManager) (address : Address) : Balance :=
  default Balance_new (address_balances bm !! address).

(** [BalanceManager::get_spendable_notes]: the [amount] argument is
    accepted and not used; the order is the map's iteration order. *)
Definition get_spendable_notes (bm : BalanceManager) (address : Address)
    (amount : N) : list Note :=
  filter (fun note =>
            note_address note = address /\ spent note = false /\
            note_locked note = false /\ is_Some (block_height note))
    (map snd (map_to_list (notes bm))).

(** A call of the ledger's mutating API. *)
Inductive LedgerOp :=
| AddNote (n : Note)
| SpendNote (id : N).

Definition ledger_step (bm : BalanceManager) (op : LedgerOp) : BalanceManager :=
  match op with
  | AddNote n => fst (add_note bm n)
  | SpendNote id => fst (spend_note bm id)
  end.

(** The state after a sequence of calls (results ignored). *)
Definition run_ledger (bm : BalanceManager) (ops : list LedgerOp) : BalanceManager :=
  foldl ledger_step bm ops.

(** Contribution of note [n] to the bucket [conf] ([true]: notes with
    [block_height] set) of [address]: its amount when it is an unspent
    note of that address and bucket, 0 otherwise. *)
Definition contrib (address : Address) (conf : bool) (n : Note) : N :=
  if bool_decide (note_address n = address) && negb (spent n)
     && Bool.eqb (bool_decide (is_Some (block_height n))) conf
  then note_amount n else 0.

Definition usum (address : Address) (conf : bool) (m : gmap N Note) : N :=
  map_fold (fun _ n acc => contrib address conf n + acc) 0 m.

(** Sum of amounts of the unspent notes of [address] in bucket [conf]. *)
Definition unspent_sum (bm : BalanceManager) (address : Address) (conf : bool) : N :=
  usum address conf (notes bm).

(** The ledger invariant of the spec. *)
Definition ledger_inv (bm : BalanceManager) : Prop :=
  forall address,
    unspent_sum bm address true = confirmed (get_balance bm address) /\
    unspent_sum bm address false = unconfirmed (get_balance bm address).

(** The balance bucket [add_note] increments for a note with this
    [block_height]. *)
Definition bucket (b : Balance) (bh : option N) : N :=
  match bh with Some _ => confirmed b | None => unconfirmed b end.

(** Calls whose notes are fresh (id not yet in the store), unspent when
    added, and whose additions do not overflow a [u64] balance bucket. *)
Fixpoint ops_ok (bm : BalanceManager) (ops : list LedgerOp) : bool :=
  match ops with
  | [] => true
  | AddNote n :: rest =>
      bool_decide (notes bm !! note_id n = None) && negb (spent n)
      && bool_decide (bucket (get_balance bm (note_address n)) (block_height n)
                      + note_amount n < u64_modulus)
      && ops_ok (ledger_step bm (AddNote n)) rest
  | SpendNote id :: rest => ops_ok (ledger_step bm (SpendNote id)) rest
  end.

(* ================================================================== *)
(** ** Transactions ([keys.rs] types, [transaction.rs]) *)

(** [pub struct OutPoint] *)
Record OutPoint := mk_OutPoint {
  op_transaction_id : string;
  op_output_index : N
}.

(** [pub struct TransactionInput] *)
Record TransactionInput := mk_TransactionInput {
  previous_output : OutPoint;
  in_signature : list Z;
  in_public_key : list Z;
  in_amount : N
}.

(** [pub struct TransactionOutput] *)
Record TransactionOutput := mk_TransactionOutput {
  out_amount : N;
  recipient_address : string;
  script_pubkey : list Z
}.

(** [pub struct TransactionBuilder] *)
Record TransactionBuilder := mk_TransactionBuilder {
  inputs : list TransactionInput;
  outputs : list TransactionOutput;
  fee : N
}.

(** [Iterator::sum] over [u64] (release build: wrapping). *)
Definition u64_sum (l : list N) : N := fold_left u64_add l 0.

(** [TransactionBuilder::total_input] *)
Definition total_input (tb : TransactionBuilder) : N :=
  u64_sum (map in_amount (inputs tb)).

(** [TransactionBuilder::total_output] *)
Definition total_output (tb : TransactionBuilder) : N :=
  u64_sum (map out_amount (outputs tb)).

(** [TransactionBuilder::validate] *)
Definition validate (tb : TransactionBuilder) : WalletResult unit :=
  if bool_decide (inputs tb = []) then Err (Transaction "No inputs provided")
  else if bool_decide (outputs tb = []) then Err (Transaction "No outputs provided")
  else
    let total_input := total_input tb in
    let total_output := total_output tb in
    let total_spent := u64_add total_output (fee tb) in
    if total_input <? total_spent then
      Err (InsufficientFunds total_spent total_input)
    else Ok tt.

(** [pub enum TransactionStatus] *)
Inductive TransactionStatus :=
| Pending
| Confirmed (block_height : N)
| Failed (reason : string).

(** [pub struct Transaction] (the history record); times are seconds. *)
Record Tx := mk_Tx {
  tx_id : string;
  status : TransactionStatus;
  tx_amount : N;
  tx_fee : N;
  from_address : option Address;
  to_address : option Address;
  created_at : Z;
  confirmed_at : option Z;
  is_outgoing : bool
}.

(** [transaction.status = Confirmed { block_height };
     transaction.confirmed_at = Some(now)] *)
Definition mark_confirmed (tx : Tx) (bh : N) (now : Z) : Tx :=
  mk_Tx (tx_id tx) (Confirmed bh) (tx_amount tx) (tx_fee tx)
    (from_address tx) (to_address tx) (created_at tx) (Some now)
    (is_outgoing tx).

(** [pub struct TransactionManager] *)
Record TransactionManager := mk_TransactionManager {
  pending_transactions : list Tx;
  confirmed_transactions : list Tx
}.

(** [Iterator::position]: index of the first element satisfying [p]. *)
Fixpoint position {A} (p : A -> bool) (l : list A) : option nat :=
  match l with
  | [] => None
  | x :: l' => if p x then Some 0%nat else option_map S (position p l')
  end.

(** [Vec::remove(pos)]: the element at [pos] and the vector without it
    ([None] is the out-of-bounds panic). *)
Definition vec_remove {A} (pos : nat) (l : list A) : option (A * list A) :=
  match l !! pos with
  | Some x => Some (x, take pos l ++ drop (S pos) l)
  | None => None
  end.

(** [TransactionManager::confirm_transaction]; [now] is [Utc::now()]. *)
Definition confirm_transaction (tm : TransactionManager) (id : string)
    (block_height : N) (now : Z) : TransactionManager * WalletResult unit :=
  match position (fun tx => String.eqb (tx_id tx) id) (pending_transactions tm) with
  | Some pos =>
      match vec_remove pos (pending_transactions tm) with
      | Some (transaction, pending') =>
          (mk_TransactionManager pending'
             (confirmed_transactions tm ++ [mark_confirmed transaction block_height now]),
           Ok tt)
      | None => (tm, Err (Transaction "index out of bounds")) (* unreachable *)
      end
  | None => (tm, Err (Transaction ("Transaction " ++ id ++ " not found")))
  end.

(* ================================================================== *)
(** ** Keys ([keys.rs]) *)

(** [pub struct NockchainKeyPair]; keys are their 32-byte encodings. *)
Record NockchainKeyPair := mk_NockchainKeyPair {
  signing_key : list Z;
  verifying_key : list Z;
  kp_address : Address;
  nockchain_address : option string
}.

(** [pub struct NockchainStoredKeyData] *)
Record NockchainStoredKeyData := mk_NockchainStoredKeyData {
  sk_name : string;
  sk_public_key : list Z;
  encrypted_secret_key : list Z;
  sk_address : string;
  sk_nockchain_address : option string;
  nock_noun : option (list Z);
  sk_created_at : Z
}.

(** [pub struct NockchainKeyManager] *)
Record NockchainKeyManager := mk_NockchainKeyManager {
  keys : gmap string NockchainKeyPair;
  encrypted_storage : gmap string NockchainStoredKeyData
}.

(** [NockchainKeyManager::generate_key].  [NockchainKeyPair::generate()]
    draws a fresh key from [OsRng] and always returns [Ok]; [keypair] is
    the key pair it returned. *)
Definition generate_key (km : NockchainKeyManager) (name : string)
    (keypair : NockchainKeyPair) : NockchainKeyManager * WalletResult Address :=
  let address := kp_address keypair in
  (mk_NockchainKeyManager (<[name := keypair]> (keys km)) (encrypted_storage km),
   Ok address).

(* ================================================================== *)
(** ** Base58 (the [bs58] crate, Bitcoin alphabet) and [Address] text *)

Open Scope Z_scope.

Definition b58_alphabet : string :=
  "123456789ABCDEFGHJKLMNPQRSTUVWXYZabcdefghijkmnopqrstuvwxyz".

(** The character of digit [d] (0 <= d < 58). *)
Definition b58_char (d : Z) : ascii :=
  nth (Z.to_nat d) (list_ascii_of_string b58_alphabet) "1"%char.

(** The digit of a character, [None] if it is not in the alphabet. *)
Fixpoint index_of (c : ascii) (l : list ascii) (i : Z) : option Z :=
  match l with
  | [] => None
  | c' :: l' => if Ascii.eqb c c' then Some i else index_of c l' (i + 1)
  end.

Definition b58_digit (c : ascii) : option Z :=
  index_of c (list_ascii_of_string b58_alphabet) 0.

(** Big-endian value of a digit list in base [b]. *)
Definition from_digits (b : Z) (ds : list Z) : Z :=
  fold_left (fun acc d => acc * b + d) ds 0.

(** Little-endian digits of [n] in base [b], at most [fuel] of them, with
    no leading zero digit (none at all for [n = 0]). *)
Fixpoint digits_rev (fuel : nat) (b n : Z) : list Z :=
  match fuel with
  | O => []
  | S f => if n =? 0 then [] else n mod b :: digits_rev f b (n / b)
  end.

(** Minimal big-endian digits of [n] in base [b]. *)
Definition to_digits (fuel : nat) (b n : Z) : list Z := rev (digits_rev fuel b n).

(** Number of leading elements equal to [x]. *)
Fixpoint count_leading {A} `{EqDecision A} (x : A) (l : list A) : nat :=
  match l with
  | [] => O
  | y :: l' => if decide (y = x) then S (count_leading x l') else O
  end.

(** [bs58::encode(bytes).into_string()]: one ['1'] per leading zero byte,
    then the base-58 digits of the big-endian value of the other bytes
    (a value below [256^k] has at most [2k] base-58 digits). *)
Definition bs58_encode (bytes : list Z) : string :=
  let zeros := count_leading 0 bytes in
  let n := from_digits 256 (drop zeros bytes) in
  string_of_list_ascii
    (repeat "1"%char zeros ++ map b58_char (to_digits (2 * List.length bytes) 58 n)).

(** [bs58::decode::Error] *)
Inductive Bs58Error := InvalidCharacter (character : ascii) (index : nat).

Fixpoint decode_digits (cs : list ascii) (i : nat) : Bs58Error + list Z :=
  match cs with
  | [] => inr []
  | c :: cs' =>
      match b58_digit c with
      | None => inl (InvalidCharacter c i)
      | Some d =>
          match decode_digits cs' (S i) with
          | inl e => inl e
          | inr ds => inr (d :: ds)
          end
      end
  end.

(** [bs58::decode(s).into_vec()]: one zero byte per leading ['1'], then
    the big-endian bytes of the value of the base-58 digits (a value
    below [58^k] has at most [k] bytes). *)
Definition bs58_decode (s : string) : Bs58Error + list Z :=
  let cs := list_ascii_of_string s in
  let ones := count_leading "1"%char cs in
  match decode_digits (drop ones cs) ones with
  | inl e => inl e
  | inr ds =>
      inr (repeat 0 ones ++ to_digits (List.length cs) 256 (from_digits 58 ds))
  end.

(** [Address::to_string] *)
Definition Address_to_string (a : Address) : string := bs58_encode (public_key a).

(** [Address::from_string] *)
Definition Address_from_string (s : string) : WalletResult Address :=
  match bs58_decode s with
  | inl _ => Err (InvalidAddress "Base58 decode error")
  | inr decoded =>
      if negb (List.length decoded =? 32)%nat then
        Err (InvalidAddress "Invalid address length")
      else Ok (mk_Address decoded)
  end.

(** A [[u8; 32]] public key. *)
Definition valid_address (a : Address) : Prop :=
  List.length (public_key a) = 32%nat /\ Forall (fun b => 0 <= b < 256) (public_key a).

(* ================================================================== *)
(** ** Blocks, Merkle root and difficulty ([mod.rs]) *)

(** [pub struct NockchainTransaction] ([keys.rs]) *)
Record NockchainTransaction := mk_NockchainTransaction {
  transaction_data : list Z;
  signatures : list (list Z);
  hash : list Z;
  timestamp_tx : Z;
  nock_code : option (list Z);
  zk_proof : option (list Z);
  ntx_inputs : list TransactionInput;
  ntx_outputs : list TransactionOutput;
  ntx_fee : N
}.

(** [pub struct BlockHeader] *)
Record BlockHeader := mk_BlockHeader {
  version : Z;
  previous_hash : list Z;
  merkle_root : list Z;
  timestamp : Z;
  bits : Z;
  nonce : Z;
  height : Z
}.

(** [x.to_le_bytes()] for a [k]-byte integer. *)
Fixpoint to_le_bytes (k : nat) (x : Z) : list Z :=
  match k with
  | O => []
  | S k' => Z.land x 255 :: to_le_bytes k' (Z.shiftr x 8)
  end.

(** [hash[..len].copy_from_slice(..)] into [[0u8; 32]]: the first 32
    bytes of [h], zero-padded to 32. *)
Definition pad32 (h : list Z) : list Z :=
  let len := Nat.min 32 (List.length h) in
  take len h ++ repeat 0 (32 - len)%nat.

(** [Vec::chunks(2)] *)
Fixpoint chunks2 {A} (l : list A) : list (list A) :=
  match l with
  | a :: b :: l' => [a; b] :: chunks2 l'
  | [a] => [[a]]
  | [] => []
  end.

(** [difficulty_to_target(bits)] ([bits : u32]). *)
Definition difficulty_to_target (bits : Z) : list Z :=
  let exponent := Z.land (Z.shiftr bits 24) 255 in
  let mantissa := Z.land bits 16777215 in
  let target := repeat 0 32 in
  if exponent <=? 3 then
    let target_value := Z.shiftr mantissa (8 * (3 - exponent)) in
    <[31%nat := Z.land target_value 255]>
      (<[30%nat := Z.land (Z.shiftr target_value 8) 255]>
         (<[29%nat := Z.land (Z.shiftr target_value 16) 255]> target))
  else if exponent <? 32 then
    let start_byte := Z.to_nat (32 - exponent) in
    <[(start_byte + 2)%nat := Z.land mantissa 255]>
      (<[(start_byte + 1)%nat := Z.land (Z.shiftr mantissa 8) 255]>
         (<[start_byte := Z.land (Z.shiftr mantissa 16) 255]> target))
  else target.

(** The [for i in 0..32] comparison loop of [meets_difficulty], from
    index [i] with [fuel] indices left. *)
Fixpoint cmp_from (fuel i : nat) (hash target : list Z) : bool :=
  match fuel with
  | O => true
  | S f =>
      let a := nth i hash 0 in
      let b := nth i target 0 in
      if a <? b then true
      else if b <? a then false
      else cmp_from f (S i) hash target
  end.

Section Hashing.

(** SHA-256 of a byte string (the [sha2] crate). *)
Variable sha256 : list Z -> list Z.

(** A running [Sha256] hasher is the bytes fed to it so far. *)
Definition hasher_update (st bytes : list Z) : list Z := st ++ bytes.
Definition hasher_finalize (st : list Z) : list Z := sha256 st.

(** [BlockHeader::hash] *)
Definition header_hash (h : BlockHeader) : list Z :=
  let st := hasher_update [] (to_le_bytes 4 (version h)) in
  let st := hasher_update st (previous_hash h) in
  let st := hasher_update st (merkle_root h) in
  let st := hasher_update st (to_le_bytes 8 (timestamp h)) in
  let st := hasher_update st (to_le_bytes 4 (bits h)) in
  let st := hasher_update st (to_le_bytes 8 (nonce h)) in
  let st := hasher_update st (to_le_bytes 8 (height h)) in
  hasher_finalize st.

(** [BlockHeader::meets_difficulty] *)
Definition meets_difficulty (h : BlockHeader) : bool :=
  cmp_from 32 0 (header_hash h) (difficulty_to_target (bits h)).

(** One pass of the [while] loop of [calculate_merkle_root]. *)
Definition merkle_level (hashes : list (list Z)) : list (list Z) :=
  map (fun chunk =>
         match chunk with
         | [c0; c1] => hasher_finalize (hasher_update (hasher_update [] c0) c1)
         | c0 :: _ => hasher_finalize (hasher_update (hasher_update [] c0) c0)
         | [] => hasher_finalize [] (* no empty chunk *)
         end) (chunks2 hashes).

(** [while hashes.len() > 1 { hashes = next_level }]; each pass shortens
    a list of two or more, so [length hashes] passes always suffice. *)
Fixpoint merkle_loop (fuel : nat) (hashes : list (list Z)) : list (list Z) :=
  match fuel with
  | O => hashes
  | S f =>
      if (1 <? List.length hashes)%nat then merkle_loop f (merkle_level hashes)
      else hashes
  end.

(** [calculate_merkle_root] *)
Definition calculate_merkle_root (transactions : list NockchainTransaction) : list Z :=
  match transactions with
  | [] => repeat 0 32
  | _ =>
      let hashes := map (fun tx => pad32 (hash tx)) transactions in
      let final := merkle_loop (List.length hashes) hashes in
      match final with
      | h :: _ => h
      | [] => repeat 0 32 (* unreachable: the loop keeps one hash *)
      end
  end.

(** The Merkle fold as the spec words it: pair neighbours, hashing
    SHA-256(left || right), an odd last element paired with itself. *)
Fixpoint spec_pair_level (l : list (list Z)) : list (list Z) :=
  match l with
  | a :: b :: l' => sha256 (a ++ b) :: spec_pair_level l'
  | [a] => [sha256 (a ++ a)]
  | [] => []
  end.

(** [merkle_fold hs r]: folding the level [hs] level by level until one
    hash remains ends with [r]. *)
Inductive merkle_fold : list (list Z) -> list Z -> Prop :=
| merkle_fold_one h : merkle_fold [h] h
| merkle_fold_step l r :
    (1 < List.length l)%nat -> merkle_fold (spec_pair_level l) r -> merkle_fold l r.

End Hashing.

(* ================================================================== *)
(** ** The rest of the wallet API *)

(** [Address::from_bytes]: the first [min(len, 32)] bytes, zero-padded. *)
Definition from_bytes (bytes : list Z) : Address := mk_Address (pad32 bytes).

(** [Balance::total] (release build: wrapping). *)
Definition Balance_total (b : Balance) : N := u64_add (confirmed b) (unconfirmed b).

(** [Balance::available] *)
Definition Balance_available (b : Balance) : N :=
  u64_saturating_sub (confirmed b) (locked b).

(** [BalanceManager::get_total_balance]: [u64] sums over the map's values
    (the iteration order does not matter for wrapping addition). *)
Definition get_total_balance (bm : BalanceManager) : Balance :=
  map_fold (fun _ balance total =>
              mk_Balance (u64_add (confirmed total) (confirmed balance))
                (u64_add (unconfirmed total) (unconfirmed balance))
                (u64_add (locked total) (locked balance)))
    Balance_new (address_balances bm).

(** [BalanceManager::get_notes_for_address] *)
Definition get_notes_for_address (bm : BalanceManager) (address : Address) : list Note :=
  filter (fun note => note_address note = address) (map snd (map_to_list (notes bm))).

(** Amount of note [n] in bucket [conf] if it is unspent, else 0. *)
Definition note_bucket_amount (conf : bool) (n : Note) : N :=
  if negb (spent n) && Bool.eqb (bool_decide (is_Some (block_height n))) conf
  then note_amount n else 0%N.

(** Sum over all addresses of the unspent notes of bucket [conf]. *)
Definition all_unspent_sum (bm : BalanceManager) (conf : bool) : N :=
  map_fold (fun _ n acc => (note_bucket_amount conf n + acc)%N) 0%N (notes bm).

(** Sum of [f] over the values of a map. *)
Definition nsum {K V} `{Countable K} (f : V -> N) (m : gmap K V) : N :=
  map_fold (fun _ x acc => (f x + acc)%N) 0%N m.

(** [Result::map] *)
Definition wr_map {A B} (f : A -> B) (r : WalletResult A) : WalletResult B :=
  match r with Ok v => Ok (f v) | Err e => Err e end.

(** Well-formedness the ledger API keeps: every stored note's address
    has a balance entry, and no balance has a locked amount. *)
Definition ledger_wf (bm : BalanceManager) : Prop :=
  (forall id n, notes bm !! id = Some n -> is_Some (address_balances bm !! note_address n)) /\
  map_Forall (fun _ b => locked b = 0%N) (address_balances bm).

(** The per-address balances sum to the unspent notes of all addresses. *)
Definition total_inv (bm : BalanceManager) : Prop :=
  nsum confirmed (address_balances bm) = all_unspent_sum bm true /\
  nsum unconfirmed (address_balances bm) = all_unspent_sum bm false.

(** The ids of the notes added by a call sequence. *)
Definition added_ids (ops : list LedgerOp) : gset N :=
  list_to_set (omap (fun op => match op with AddNote n => Some (note_id n) | SpendNote _ => None end) ops).

(** [TransactionBuilder::new], [add_input], [add_output], [set_fee] *)
Definition TransactionBuilder_new : TransactionBuilder := mk_TransactionBuilder [] [] 0%N.

Definition add_input (tb : TransactionBuilder) (input : TransactionInput) : TransactionBuilder :=
  mk_TransactionBuilder (inputs tb ++ [input]) (outputs tb) (fee tb).

Definition add_output (tb : TransactionBuilder) (output : TransactionOutput) : TransactionBuilder :=
  mk_TransactionBuilder (inputs tb) (outputs tb ++ [output]) (fee tb).

Definition set_fee (tb : TransactionBuilder) (f : N) : TransactionBuilder :=
  mk_TransactionBuilder (inputs tb) (outputs tb) f.

(** [pub struct SignedTransaction] *)
Record SignedTransaction := mk_SignedTransaction {
  st_id : string;
  st_inputs : list TransactionInput;
  st_outputs : list TransactionOutput;
  st_fee : N;
  st_signature : list Z;
  st_hash : list Z
}.

(** [s.as_bytes()] of a string (one byte per character). *)
Definition str_bytes (s : string) : list Z :=
  map (fun c => Z.of_nat (nat_of_ascii c)) (list_ascii_of_string s).

(** [hex::encode]: two lower-case hex digits per byte. *)
Definition hex_digit (d : Z) : ascii :=
  nth (Z.to_nat d) (list_ascii_of_string "0123456789abcdef") "0"%char.

Definition hex_encode (bytes : list Z) : string :=
  string_of_list_ascii (concat (map (fun b => [hex_digit (b / 16); hex_digit (b mod 16)]) bytes)).

(** [TransactionManager::new] *)
Definition TransactionManager_new : TransactionManager := mk_TransactionManager [] [].

(** [signed_tx.outputs.first().map(|o| Address::from_string(..).ok()).flatten()] *)
Definition first_recipient_address (outs : list TransactionOutput) : option Address :=
  match outs with
  | o :: _ =>
      match Address_from_string (recipient_address o) with
      | Ok a => Some a
      | Err _ => None
      end
  | [] => None
  end.

(** [TransactionManager::add_pending_transaction]; [now] is [Utc::now()]. *)
Definition add_pending_transaction (tm : TransactionManager) (signed_tx : SignedTransaction)
    (is_outgoing : bool) (now : Z) : TransactionManager :=
  let transaction :=
    mk_Tx (st_id signed_tx) Pending (u64_sum (map out_amount (st_outputs signed_tx)))
      (st_fee signed_tx) None (first_recipient_address (st_outputs signed_tx))
      now None is_outgoing in
  mk_TransactionManager (pending_transactions tm ++ [transaction]) (confirmed_transactions tm).

(** [slice::sort_by(|a, b| b.created_at.cmp(&a.created_at))]: a stable
    sort, newest first, as insertion sort: [x] goes before the first
    element that is not strictly newer. *)
Fixpoint insert_by_created (x : Tx) (l : list Tx) : list Tx :=
  match l with
  | [] => [x]
  | y :: l' => if created_at x <? created_at y then y :: insert_by_created x l' else x :: l
  end.

Fixpoint sort_by_created_desc (l : list Tx) : list Tx :=
  match l with
  | [] => []
  | x :: l' => insert_by_created x (sort_by_created_desc l')
  end.

(** [TransactionManager::get_all_transactions] *)
Definition get_all_transactions (tm : TransactionManager) : list Tx :=
  sort_by_created_desc (pending_transactions tm ++ confirmed_transactions tm).

(** [NockchainKeyManager::new] *)
Definition NockchainKeyManager_new : NockchainKeyManager := mk_NockchainKeyManager ∅ ∅.

(** [NockchainKeyManager::get_key] *)
Definition get_key (km : NockchainKeyManager) (name : string) : WalletResult NockchainKeyPair :=
  match keys km !! name with
  | Some kp => Ok kp
  | None => Err (KeyNotFound name)
  end.

(** [NockchainKeyManager::remove_key] *)
Definition remove_key (km : NockchainKeyManager) (name : string)
    : NockchainKeyManager * WalletResult unit :=
  match keys km !! name with
  | Some _ => (mk_NockchainKeyManager (delete name (keys km)) (delete name (encrypted_storage km)),
               Ok tt)
  | None => (km, Err (KeyNotFound name))
  end.

(** [NockchainKeyPair::public_bytes] *)
Definition public_bytes (kp : NockchainKeyPair) : list Z := verifying_key kp.

(** [NockchainKeyPair::to_nock_noun] *)
Definition to_nock_noun (kp : NockchainKeyPair) : WalletResult (list Z) := Ok (public_bytes kp).

(** The [for (name, keypair) in &self.keys] loop of [export_nockchain_keys]
    over the map's entries. *)
Fixpoint export_loop (entries : list (string * NockchainKeyPair)) (exported : list Z)
    : WalletResult (list Z) :=
  match entries with
  | [] => Ok exported
  | (_, kp) :: rest =>
      match to_nock_noun kp with
      | Ok noun => export_loop rest (exported ++ noun)
      | Err e => Err e
      end
  end.

(** [NockchainKeyManager::export_nockchain_keys] *)
Definition export_nockchain_keys (km : NockchainKeyManager) : WalletResult (list Z) :=
  export_loop (map_to_list (keys km)) [].

(** [slice::chunks(n)] ([n > 0]); [fuel] bounds the number of chunks. *)
Fixpoint chunks_fuel {A} (fuel n : nat) (l : list A) : list (list A) :=
  match fuel with
  | O => []
  | S f =>
      match l with
      | [] => []
      | _ :: _ => take n l :: chunks_fuel f n (drop n l)
      end
  end.

Definition chunks {A} (n : nat) (l : list A) : list (list A) :=
  chunks_fuel (List.length l) n l.

(** [format!("imported_key_{}", i)] *)
Definition imported_key_name (i : nat) : string := ("imported_key_" +:+ pretty i)%string.

(** [NockchainKeyPair::compute_nockchain_address] *)
Definition compute_nockchain_address (verifying_key : list Z) : option string :=
  Some ("nock_" +:+ bs58_encode verifying_key)%string.

(** [NockchainKeyPair::nockchain_address()] *)
Definition keypair_nockchain_address (kp : NockchainKeyPair) : string :=
  default (Address_to_string (kp_address kp)) (nockchain_address kp).

(** [pub struct Block] *)
Record Block := mk_Block {
  header : BlockHeader;
  transactions : list NockchainTransaction
}.

Definition set_nonce (h : BlockHeader) (n : Z) : BlockHeader :=
  mk_BlockHeader (version h) (previous_hash h) (merkle_root h) (timestamp h) (bits h) n (height h).

Definition set_timestamp (h : BlockHeader) (t : Z) : BlockHeader :=
  mk_BlockHeader (version h) (previous_hash h) (merkle_root h) t (bits h) (nonce h) (height h).

(** [Utc::now().timestamp() as u64] *)
Definition now_as_u64 (now : Z) : Z := now mod 2 ^ 64.

(** [const MAX_NONCE: u64 = u64::MAX]; [0..MAX_NONCE] has [MAX_NONCE]
    nonces. *)
Definition MAX_NONCE : N := (u64_modulus - 1)%N.

(** The per-transaction checks of [Block::validate]. *)
Fixpoint check_transactions (txs : list NockchainTransaction) : WalletResult unit :=
  match txs with
  | [] => Ok tt
  | tx :: rest =>
      if bool_decide (ntx_inputs tx = []) then
        Err (BlockValidation "Transaction has no inputs")
      else if bool_decide (ntx_outputs tx = []) then
        Err (BlockValidation "Transaction has no outputs")
      else check_transactions rest
  end.

(** The numeric value of the compact target [bits]: [m >> 8*(3-e)] for
    [e <= 3], [m * 256^(e-3)] for [3 < e < 32], and 0 beyond. *)
Definition target_value (bits : Z) : Z :=
  let e := Z.land (Z.shiftr bits 24) 255 in
  let m := Z.land bits 16777215 in
  if e <=? 3 then Z.shiftr m (8 * (3 - e))
  else if e <? 32 then m * 256 ^ (e - 3)
  else 0.

(** [NockchainTransaction::add_signature] *)
Definition add_signature (tx : NockchainTransaction) (signature : list Z) : NockchainTransaction :=
  mk_NockchainTransaction (transaction_data tx) (signatures tx ++ [signature]) (hash tx)
    (timestamp_tx tx) (nock_code tx) (zk_proof tx) (ntx_inputs tx) (ntx_outputs tx) (ntx_fee tx).

(** [NockchainTransaction::verify_signatures]; the key manager is not
    read. *)
Definition verify_signatures (tx : NockchainTransaction) (key_manager : NockchainKeyManager)
    : WalletResult bool :=
  Ok (negb (bool_decide (signatures tx = []))).

Section Crypto.

(** SHA-256 (the [sha2] crate). *)
Variable sha256 : list Z -> list Z.
(** [SigningKey::from_bytes(sk).verifying_key().to_bytes()] (Ed25519). *)
Variable ed25519_public : list Z -> list Z.
(** [signing_key.sign(message).to_bytes()] (Ed25519). *)
Variable ed25519_sign : list Z -> list Z -> list Z.

(** The key pair of a 32-byte secret, as [from_secret_bytes] builds it. *)
Definition keypair_of_secret (secret : list Z) : NockchainKeyPair :=
  let verifying_key := ed25519_public secret in
  mk_NockchainKeyPair secret verifying_key (from_public_key verifying_key)
    (compute_nockchain_address verifying_key).

(** [NockchainKeyPair::from_secret_bytes] *)
Definition from_secret_bytes (secret_bytes : list Z) : WalletResult NockchainKeyPair :=
  if negb (List.length secret_bytes =? 32)%nat then Err (Crypto "Invalid secret key length")
  else Ok (keypair_of_secret secret_bytes).

(** [NockchainKeyPair::from_nock_noun] *)
Definition from_nock_noun (noun_data : list Z) : WalletResult NockchainKeyPair :=
  if (32 <=? List.length noun_data)%nat then from_secret_bytes (take 32 noun_data)
  else Err (Crypto "Invalid nock noun data").

(** [NockchainKeyPair::sign] *)
Definition kp_sign (kp : NockchainKeyPair) (message : list Z) : WalletResult (list Z) :=
  Ok (ed25519_sign (signing_key kp) message).

(** [self.keys.insert(name, keypair)] *)
Definition insert_key (km : NockchainKeyManager) (name : string) (kp : NockchainKeyPair)
    : NockchainKeyManager :=
  mk_NockchainKeyManager (<[name := kp]> (keys km)) (encrypted_storage km).

(** [NockchainKeyManager::import_key] *)
Definition import_key (km : NockchainKeyManager) (name : string) (secret_bytes : list Z)
    : NockchainKeyManager * WalletResult Address :=
  match from_secret_bytes secret_bytes with
  | Err e => (km, Err e)
  | Ok kp => (insert_key km name kp, Ok (kp_address kp))
  end.

(** [NockchainKeyManager::import_nock_key] *)
Definition import_nock_key (km : NockchainKeyManager) (name : string) (noun_data : list Z)
    : NockchainKeyManager * WalletResult Address :=
  match from_nock_noun noun_data with
  | Err e => (km, Err e)
  | Ok kp => (insert_key km name kp, Ok (kp_address kp))
  end.

(** The [for (i, chunk) in keys_data.chunks(32).enumerate()] loop of
    [import_nockchain_keys]. *)
Fixpoint import_chunks (km : NockchainKeyManager) (cs : list (list Z)) (i : nat)
    : NockchainKeyManager * WalletResult unit :=
  match cs with
  | [] => (km, Ok tt)
  | chunk :: rest =>
      if (List.length chunk =? 32)%nat then
        match import_nock_key km (imported_key_name i) chunk with
        | (km', Err e) => (km', Err e)
        | (km', Ok _) => import_chunks km' rest (S i)
        end
      else import_chunks km rest (S i)
  end.

(** [NockchainKeyManager::import_nockchain_keys] *)
Definition import_nockchain_keys (km : NockchainKeyManager) (keys_data : list Z)
    : NockchainKeyManager * WalletResult unit :=
  import_chunks km (chunks 32 keys_data) 0.

(** [NockchainKeyManager::sign_with_key] *)
Definition sign_with_key (km : NockchainKeyManager) (key_name : string) (message : list Z)
    : WalletResult (list Z) :=
  match get_key km key_name with
  | Ok kp => kp_sign kp message
  | Err e => Err e
  end.

(** The hasher updates for one input / output of
    [NockchainKeyManager::create_transaction_hash]. *)
Definition hash_input (st : list Z) (input : TransactionInput) : list Z :=
  let st := hasher_update st (str_bytes (op_transaction_id (previous_output input))) in
  let st := hasher_update st (to_le_bytes 4 (Z.of_N (op_output_index (previous_output input)))) in
  let st := hasher_update st (in_signature input) in
  let st := hasher_update st (in_public_key input) in
  hasher_update st (to_le_bytes 8 (Z.of_N (in_amount input))).

Definition hash_output (st : list Z) (output : TransactionOutput) : list Z :=
  let st := hasher_update st (to_le_bytes 8 (Z.of_N (out_amount output))) in
  let st := hasher_update st (str_bytes (recipient_address output)) in
  hasher_update st (script_pubkey output).

(** [NockchainKeyManager::create_transaction_hash] *)
Definition create_transaction_hash (inputs : list TransactionInput)
    (outputs : list TransactionOutput) (fee : N) : list Z :=
  let st := fold_left hash_input inputs [] in
  let st := fold_left hash_output outputs st in
  let st := hasher_update st (to_le_bytes 8 (Z.of_N fee)) in
  hasher_finalize sha256 st.

(** The input updates of [NockchainTransaction::create_transaction_hash]
    (no amount). *)
Definition hash_input_compat (st : list Z) (input : TransactionInput) : list Z :=
  let st := hasher_update st (str_bytes (op_transaction_id (previous_output input))) in
  let st := hasher_update st (to_le_bytes 4 (Z.of_N (op_output_index (previous_output input)))) in
  let st := hasher_update st (in_signature input) in
  hasher_update st (in_public_key input).

(** [NockchainTransaction::create_transaction_hash] (no fee). *)
Definition ntx_create_transaction_hash (inputs : list TransactionInput)
    (outputs : list TransactionOutput) : list Z :=
  let st := fold_left hash_input_compat inputs [] in
  let st := fold_left hash_output outputs st in
  hasher_finalize sha256 st.

(** [NockchainTransaction::new]; [now] is [Utc::now()]. *)
Definition NockchainTransaction_new (transaction_data : list Z) (now : Z) : NockchainTransaction :=
  mk_NockchainTransaction transaction_data [] (sha256 transaction_data) now None None [] [] 0%N.

(** [TransactionBuilder::build_and_sign] *)
Definition build_and_sign (tb : TransactionBuilder) (key_manager : NockchainKeyManager)
    (key_name : string) : WalletResult SignedTransaction :=
  match validate tb with
  | Err e => Err e
  | Ok _ =>
      let tx_hash := create_transaction_hash (inputs tb) (outputs tb) (fee tb) in
      match sign_with_key key_manager key_name tx_hash with
      | Err e => Err e
      | Ok signature =>
          let tx_id := hex_encode tx_hash in
          Ok (mk_SignedTransaction tx_id (inputs tb) (outputs tb) (fee tb) signature tx_hash)
      end
  end.

(** [Block::new]; [now] is [Utc::now()]. *)
Definition Block_new (previous_hash : list Z) (transactions : list NockchainTransaction)
    (height : Z) (bits : Z) (now : Z) : Block :=
  let merkle_root := calculate_merkle_root sha256 transactions in
  let timestamp := now_as_u64 now in
  mk_Block (mk_BlockHeader 1 previous_hash merkle_root timestamp bits 0 height) transactions.

(** [Block::validate] *)
Definition Block_validate (b : Block) : WalletResult unit :=
  if negb (meets_difficulty sha256 (header b)) then
    Err (BlockValidation "Invalid proof of work")
  else if negb (bool_decide (calculate_merkle_root sha256 (transactions b) = merkle_root (header b))) then
    Err (BlockValidation "Invalid merkle root")
  else check_transactions (transactions b).

(** [Block::hash] *)
Definition Block_hash (b : Block) : list Z := header_hash sha256 (header b).

(** One iteration of the mining loop at [nonce]: [inr] is the early
    return with the header, [inl] the header the loop goes on with.
    [clock nonce] is the [Utc::now()] read at that iteration. *)
Definition mine_step (clock : N -> Z) (h : BlockHeader) (nonce : N) : BlockHeader + BlockHeader :=
  let h := set_nonce h (Z.of_N nonce) in
  if meets_difficulty sha256 h then inr h
  else if (nonce mod 100000 =? 0)%N then inl (set_timestamp h (now_as_u64 (clock nonce)))
  else inl h.

(** The loop over the [Pos.to_nat p] nonces [start, start + p). *)
Fixpoint mine_range (clock : N -> Z) (p : positive) (start : N) (h : BlockHeader)
    : BlockHeader + BlockHeader :=
  match p with
  | xH => mine_step clock h start
  | xO q =>
      match mine_range clock q start h with
      | inl h' => mine_range clock q (start + Npos q) h'
      | inr r => inr r
      end
  | xI q =>
      match mine_step clock h start with
      | inl h1 =>
          match mine_range clock q (start + 1) h1 with
          | inl h' => mine_range clock q (start + 1 + Npos q) h'
          | inr r => inr r
          end
      | inr r => inr r
      end
  end.

(** [Block::mine] *)
Definition Block_mine (clock : N -> Z) (b : Block) : Block * WalletResult unit :=
  let result :=
    match MAX_NONCE with
    | N0 => inl (header b)
    | Npos p => mine_range clock p 0 (header b)
    end in
  match result with
  | inr h => (mk_Block h (transactions b), Ok tt)
  | inl h => (mk_Block h (transactions b), Err (Consensus "Failed to find valid nonce"))
  end.

End Crypto.

(* ================================================================== *)
(** * Properties *)

(* ------------------------------------------------------------------ *)
(** ** Ledger reads and rejected spends *)

(** C9: [get_spendable_notes] does not depend on its [amount] argument,
    and returns exactly the unspent, unlocked, confirmed notes of the
    address. *)
Theorem get_spendable_notes_amount_independent
    (bm : BalanceManager) (address : Address) (a1 a2 : N) :
  get_spendable_notes bm address a1 = get_spendable_notes bm address a2 /\
  (forall n : Note,
     n ∈ get_spendable_notes bm address a1 <->
     (exists id, notes bm !! id = Some n) /\ note_address n = address /\
     spent n = false /\ note_locked n = false /\ is_Some (block_height n)).
Proof.
  split; [reflexivity |].
  intros n. unfold get_spendable_notes.
  rewrite list_elem_of_filter.
  change (map snd (map_to_list (notes bm))) with (snd <$> map_to_list (notes bm)).
  rewrite list_elem_of_fmap.
  split.
  - intros [(Ha & Hs & Hl & Hb) ([id n'] & Heq & Hin)].
    simpl in Heq; subst n'.
    apply elem_of_map_to_list in Hin. eauto 10.
  - intros [[id Hid] (Ha & Hs & Hl & Hb)].
    split; [auto |].
    exists (id, n). split; [reflexivity |].
    by apply elem_of_map_to_list.
Qed.

(** C2: [spend_note] on an already spent note fails with a
    [Transaction] error, and on an absent id with a [KeyNotFound] error;
    in both cases the whole ledger state is returned unchanged. *)
Theorem spend_note_rejects_unchanged (bm : BalanceManager) (id : N) :
  (forall n : Note, notes bm !! id = Some n -> spent n = true ->
     exists msg, spend_note bm id = (bm, Err (Transaction msg))) /\
  (notes bm !! id = None ->
     exists msg, spend_note bm id = (bm, Err (KeyNotFound msg))).
Proof.
  unfold spend_note. split.
  - intros n Hn Hs. rewrite Hn, Hs. eauto.
  - intros Hn. rewrite Hn. eauto.
Qed.

(* ------------------------------------------------------------------ *)
(** ** Transaction builder *)

Lemma u64_add_small (a b : N) : (a + b < u64_modulus)%N -> u64_add a b = (a + b)%N.
Proof. intros H. unfold u64_add. apply N.mod_small. exact H. Qed.

(** C3: on inputs whose [total_output() + fee] fits a [u64], [validate]
    fails with [InsufficientFunds { required = total_output() + fee,
    available = total_input() }] exactly when [total_input() <
    total_output() + fee], and succeeds otherwise. *)
Theorem validate_insufficient_funds_iff (tb : TransactionBuilder) :
  inputs tb <> [] -> outputs tb <> [] ->
  (total_output tb + fee tb < u64_modulus)%N ->
  validate tb =
    (if (total_input tb <? total_output tb + fee tb)%N
     then Err (InsufficientFunds (total_output tb + fee tb) (total_input tb))
     else Ok tt) /\
  ((exists r a, validate tb = Err (InsufficientFunds r a)) <->
   (total_input tb < total_output tb + fee tb)%N).
Proof.
  intros Hi Ho Hov.
  assert (Hv : validate tb =
    (if (total_input tb <? total_output tb + fee tb)%N
     then Err (InsufficientFunds (total_output tb + fee tb) (total_input tb))
     else Ok tt)).
  { unfold validate.
    rewrite (bool_decide_eq_false_2 _ Hi), (bool_decide_eq_false_2 _ Ho).
    rewrite u64_add_small by exact Hov. reflexivity. }
  split; [exact Hv |].
  rewrite Hv. destruct (N.ltb_spec (total_input tb) (total_output tb + fee tb)).
  - split; eauto.
  - split; [intros (r & a & H'); discriminate | lia].
Qed.

(** The builder with one input of 0 and one output of [u64::MAX], fee 1. *)
Definition overflow_builder : TransactionBuilder :=
  mk_TransactionBuilder
    [mk_TransactionInput (mk_OutPoint "" 0) [] (repeat 0 32) 0]
    [mk_TransactionOutput (u64_modulus - 1) "" []]
    1.

(** C3 (failing input): with [total_output() = u64::MAX] and [fee = 1]
    the inputs (0) are short of [total_output() + fee = 2^64], yet
    [validate] accepts, since [total_output + fee] wraps to 0. *)
Theorem validate_overflow_accepts :
  (total_input overflow_builder < total_output overflow_builder + fee overflow_builder)%N /\
  validate overflow_builder = Ok tt.
Proof. split; vm_compute; reflexivity. Qed.

(* ------------------------------------------------------------------ *)
(** ** Transaction manager *)

Lemma position_Some {A} (p : A -> bool) (l : list A) (k : nat) :
  position p l = Some k ->
  exists pre x post, l = pre ++ x :: post /\ length pre = k /\ p x = true /\
    Forall (fun y => p y = false) pre.
Proof.
  revert k. induction l as [|x l IH]; intros k H; simpl in H; [discriminate |].
  destruct (p x) eqn:Hp.
  - injection H as <-. exists [], x, l. auto.
  - destruct (position p l) as [k'|] eqn:Hk; simpl in H; [|discriminate].
    injection H as <-.
    destruct (IH k' eq_refl) as (pre & y & post & -> & <- & Hy & Hpre).
    exists (x :: pre), y, post. simpl. auto.
Qed.

Lemma position_None {A} (p : A -> bool) (l : list A) :
  position p l = None -> Forall (fun y => p y = false) l.
Proof.
  induction l as [|x l IH]; simpl; intros H; [constructor |].
  destruct (p x) eqn:Hp; [discriminate |].
  destruct (position p l); simpl in H; [discriminate |]. auto.
Qed.

Lemma vec_remove_middle {A} (pre post : list A) (x : A) :
  vec_remove (length pre) (pre ++ x :: post) = Some (x, pre ++ post).
Proof.
  unfold vec_remove.
  rewrite lookup_app_r by lia. rewrite Nat.sub_diag. simpl.
  rewrite take_app_length.
  replace (S (length pre)) with (length (pre ++ [x])) by (rewrite length_app; simpl; lia).
  change (x :: post) with ([x] ++ post).
  rewrite (app_assoc pre [x] post), drop_app_length. reflexivity.
Qed.

(** C8: if some pending record has id [id], the first such record is
    removed from [pending] (the others keep their order) and appended,
    with status [Confirmed { block_height }] and [confirmed_at = now], to
    [confirmed]; if none has, the call fails with a [Transaction] error
    and returns the manager unchanged. *)
Theorem confirm_transaction_spec (tm : TransactionManager) (id : string)
    (bh : N) (now : Z) :
  ((exists t, t ∈ pending_transactions tm /\ tx_id t = id) ->
   exists pre tx post,
     pending_transactions tm = pre ++ tx :: post /\ tx_id tx = id /\
     Forall (fun t => tx_id t <> id) pre /\
     status (mark_confirmed tx bh now) = Confirmed bh /\
     confirmed_at (mark_confirmed tx bh now) = Some now /\
     confirm_transaction tm id bh now =
       (mk_TransactionManager (pre ++ post)
          (confirmed_transactions tm ++ [mark_confirmed tx bh now]), Ok tt)) /\
  ((forall t, t ∈ pending_transactions tm -> tx_id t <> id) ->
   exists msg, confirm_transaction tm id bh now = (tm, Err (Transaction msg))).
Proof.
  unfold confirm_transaction. split.
  - intros (t & Ht & Hid).
    destruct (position (fun tx => String.eqb (tx_id tx) id) (pending_transactions tm))
      as [k|] eqn:Hk.
    + destruct (position_Some _ _ _ Hk) as (pre & x & post & Hl & <- & Hx & Hpre).
      exists pre, x, post.
      rewrite Hl, vec_remove_middle.
      apply String.eqb_eq in Hx.
      repeat split; auto.
      eapply Forall_impl; [exact Hpre |]. simpl.
      intros y Hy Heq. apply String.eqb_eq in Heq. congruence.
    + apply position_None in Hk.
      rewrite Forall_forall in Hk.
      specialize (Hk t Ht). simpl in Hk.
      rewrite Hid, String.eqb_refl in Hk. discriminate.
  - intros Hnone.
    destruct (position (fun tx => String.eqb (tx_id tx) id) (pending_transactions tm))
      as [k|] eqn:Hk; [| eauto].
    destruct (position_Some _ _ _ Hk) as (pre & x & post & Hl & _ & Hx & _).
    apply String.eqb_eq in Hx. exfalso. apply (Hnone x); [| exact Hx].
    rewrite Hl. apply list_elem_of_In. apply in_or_app. right. left. reflexivity.
Qed.

(* ------------------------------------------------------------------ *)
(** ** Key manager *)

(** C6 (amended): [generate_key] never reports [KeyExists]: it always
    succeeds with the new key pair's address, registers that key pair
    under [name] (replacing any key already registered there) and leaves
    the other names unchanged. *)
Theorem generate_key_overwrites (km : NockchainKeyManager) (name : string)
    (kp : NockchainKeyPair) :
  snd (generate_key km name kp) = Ok (kp_address kp) /\
  keys (fst (generate_key km name kp)) !! name = Some kp /\
  (forall other, other <> name ->
     keys (fst (generate_key km name kp)) !! other = keys km !! other).
Proof.
  unfold generate_key; simpl. split; [reflexivity |]. split.
  - apply lookup_insert_eq.
  - intros other Hne. apply lookup_insert_ne. congruence.
Qed.

Definition sample_keypair (b : Z) : NockchainKeyPair :=
  mk_NockchainKeyPair (repeat b 32) (repeat b 32) (mk_Address (repeat b 32)) None.

(** C6 (counterexample): generating a key under a name that is already
    registered succeeds instead of failing with [KeyExists]. *)
Theorem generate_key_existing_name_succeeds :
  let km := mk_NockchainKeyManager {[ "main"%string := sample_keypair 1 ]} ∅ in
  is_Some (keys km !! "main"%string) /\
  snd (generate_key km "main" (sample_keypair 2)) = Ok (mk_Address (repeat 2 32)).
Proof. simpl. split; [eexists; reflexivity | reflexivity]. Qed.

(* ------------------------------------------------------------------ *)
(** ** Compact difficulty *)

Definition is_byte (b : Z) : Prop := 0 <= b < 256.

Lemma land_255_mod (x : Z) : Z.land x 255 = x mod 256.
Proof. change 255 with (Z.ones 8). rewrite Z.land_ones by lia. reflexivity. Qed.

Lemma shiftr_8 (x : Z) : Z.shiftr x 8 = x / 256.
Proof. rewrite Z.shiftr_div_pow2 by lia. reflexivity. Qed.

Lemma shiftr_16 (x : Z) : Z.shiftr x 16 = x / 256 / 256.
Proof. rewrite Z.shiftr_div_pow2 by lia. rewrite Z.div_div by lia. reflexivity. Qed.

(** The three big-endian bytes the code writes for a 24-bit value. *)
Lemma three_bytes_value (v : Z) :
  0 <= v < 2 ^ 24 ->
  Forall is_byte [Z.land (Z.shiftr v 16) 255; Z.land (Z.shiftr v 8) 255; Z.land v 255] /\
  from_digits 256 [Z.land (Z.shiftr v 16) 255; Z.land (Z.shiftr v 8) 255; Z.land v 255] = v.
Proof.
  intros Hv. rewrite shiftr_16, shiftr_8, !land_255_mod.
  assert (H1 := Z.div_mod v 256 ltac:(lia)).
  assert (H2 := Z.div_mod (v / 256) 256 ltac:(lia)).
  assert (H3 : v / 256 / 256 < 256).
  { apply Z.div_lt_upper_bound; [lia |]. apply Z.div_lt_upper_bound; lia. }
  assert (H4 : 0 <= v / 256 / 256) by (apply Z.div_pos; [apply Z.div_pos |]; lia).
  rewrite (Z.mod_small (v / 256 / 256)) by lia.
  assert (H5 := Z.mod_pos_bound v 256 ltac:(lia)).
  assert (H6 := Z.mod_pos_bound (v / 256) 256 ltac:(lia)).
  split.
  - repeat constructor; unfold is_byte; lia.
  - unfold from_digits; simpl. lia.
Qed.

Lemma insert_repeat_app (i j : nat) (x : Z) (l : list Z) :
  <[(i + j)%nat := x]> (repeat 0 i ++ l) = repeat 0 i ++ <[j := x]> l.
Proof. induction i as [|i IH]; simpl; [reflexivity | rewrite IH; reflexivity]. Qed.

Lemma insert_repeat_app0 (i : nat) (x : Z) (l : list Z) :
  <[i := x]> (repeat 0 i ++ l) = repeat 0 i ++ <[0%nat := x]> l.
Proof. rewrite <- insert_repeat_app. f_equal. lia. Qed.

Lemma exponent_range (bits : Z) : 0 <= Z.land (Z.shiftr bits 24) 255 < 256.
Proof. rewrite land_255_mod. apply Z.mod_pos_bound. lia. Qed.

Lemma mantissa_range (bits : Z) : 0 <= Z.land bits 16777215 < 2 ^ 24.
Proof.
  change 16777215 with (Z.ones 24). rewrite Z.land_ones by lia.
  apply Z.mod_pos_bound. lia.
Qed.

(** C5: with exponent [e] and mantissa [m], for [e <= 3] the target is
    29 zero bytes followed by the three big-endian bytes of
    [m >> 8*(3-e)]; for [3 < e < 32] it is [32-e] zero bytes, the three
    big-endian bytes of [m] (offsets [32-e], [33-e], [34-e]) and zeros;
    [0x1d00ffff] gives [00 ff ff] at offsets 3, 4, 5 and zeros
    elsewhere. *)
Theorem difficulty_to_target_layout (bits : Z) :
  let e := Z.land (Z.shiftr bits 24) 255 in
  let m := Z.land bits 16777215 in
  (e <= 3 ->
   exists bs, difficulty_to_target bits = repeat 0 29 ++ bs /\
     List.length bs = 3%nat /\ Forall is_byte bs /\
     from_digits 256 bs = Z.shiftr m (8 * (3 - e))) /\
  (3 < e < 32 ->
   exists bs, difficulty_to_target bits =
       repeat 0 (Z.to_nat (32 - e)) ++ bs ++ repeat 0 (Z.to_nat (e - 3)) /\
     List.length bs = 3%nat /\ Forall is_byte bs /\ from_digits 256 bs = m) /\
  difficulty_to_target 0x1d00ffff = repeat 0 3 ++ [0; 255; 255] ++ repeat 0 26.
Proof.
  intros e m.
  assert (He : 0 <= e < 256) by apply exponent_range.
  assert (Hm : 0 <= m < 2 ^ 24) by apply mantissa_range.
  split; [| split].
  - intros Hle. unfold difficulty_to_target. fold e m.
    rewrite (proj2 (Z.leb_le e 3) Hle).
    set (v := Z.shiftr m (8 * (3 - e))).
    assert (Hv : 0 <= v < 2 ^ 24).
    { unfold v. rewrite Z.shiftr_div_pow2 by lia.
      assert (0 < 2 ^ (8 * (3 - e))) by (apply Z.pow_pos_nonneg; lia).
      split; [apply Z.div_pos; lia |].
      apply Z.le_lt_trans with m; [| lia].
      apply Z.div_le_upper_bound; nia. }
    destruct (three_bytes_value v Hv) as [Hb Hval].
    exists [Z.land (Z.shiftr v 16) 255; Z.land (Z.shiftr v 8) 255; Z.land v 255].
    split; [cbn -[Z.land Z.shiftr]; reflexivity |]. split; [reflexivity |]. exact (conj Hb Hval).
  - intros [Hlo Hhi]. unfold difficulty_to_target. fold e m.
    rewrite (proj2 (Z.leb_gt e 3) Hlo), (proj2 (Z.ltb_lt e 32) Hhi).
    clearbody e m.
    assert (Hsplit : repeat 0 32 =
      repeat 0 (Z.to_nat (32 - e)) ++ [0; 0; 0] ++ repeat 0 (Z.to_nat (e - 3))).
    { change [0; 0; 0] with (repeat 0 3).
      rewrite <- (repeat_app 0 3 (Z.to_nat (e - 3))), <- repeat_app.
      f_equal. lia. }
    rewrite Hsplit, insert_repeat_app0, !insert_repeat_app.
    destruct (three_bytes_value m Hm) as [Hb Hval].
    exists [Z.land (Z.shiftr m 16) 255; Z.land (Z.shiftr m 8) 255; Z.land m 255].
    split; [f_equal; cbn -[Z.land Z.shiftr]; reflexivity |]. split; [reflexivity |]. exact (conj Hb Hval).
  - vm_compute. reflexivity.
Qed.

Lemma cmp_from_zero_target (target hash : list Z) (fuel i : nat) :
  (forall k, nth k target 0 = 0) -> Forall is_byte hash ->
  cmp_from fuel i hash target = true <->
  (forall k, (i <= k < i + fuel)%nat -> nth k hash 0 = 0).
Proof.
  intros Ht Hh. revert i. induction fuel as [|f IH]; intros i; simpl.
  - split; [intros _ k Hk; lia | auto].
  - rewrite Ht.
    assert (Hnn : 0 <= nth i hash 0).
    { destruct (nth_in_or_default i hash 0) as [Hin | ->]; [| lia].
      rewrite Forall_forall in Hh. apply list_elem_of_In in Hin.
      apply (Hh _ Hin). }
    destruct (Z.ltb_spec (nth i hash 0) 0); [lia |].
    destruct (Z.ltb_spec 0 (nth i hash 0)).
    + split; [discriminate |]. intros Hall. specialize (Hall i ltac:(lia)). lia.
    + rewrite IH. split.
      * intros Hall k Hk. destruct (Nat.eq_dec k i) as [-> | Hne]; [lia |].
        apply Hall. lia.
      * intros Hall k Hk. apply Hall. lia.
Qed.

(** C10: when the exponent of [bits] is 32 or more the target is all
    zeros, and a header with such [bits] (whose hash is a 32-byte array)
    meets the difficulty exactly when its hash is 32 zero bytes. *)
Theorem high_exponent_zero_target (sha256 : list Z -> list Z) (h : BlockHeader) :
  32 <= Z.land (Z.shiftr (bits h) 24) 255 ->
  List.length (header_hash sha256 h) = 32%nat ->
  Forall is_byte (header_hash sha256 h) ->
  difficulty_to_target (bits h) = repeat 0 32 /\
  (meets_difficulty sha256 h = true <-> header_hash sha256 h = repeat 0 32).
Proof.
  intros He Hlen Hb.
  assert (Ht : difficulty_to_target (bits h) = repeat 0 32).
  { unfold difficulty_to_target.
    rewrite (proj2 (Z.leb_gt _ 3)) by lia. rewrite (proj2 (Z.ltb_ge _ 32)) by lia.
    reflexivity. }
  split; [exact Ht |].
  unfold meets_difficulty. rewrite Ht, cmp_from_zero_target; [| | exact Hb].
  - split.
    + intros H. apply nth_ext with (d := 0) (d' := 0).
      * rewrite Hlen, repeat_length. reflexivity.
      * intros k Hk. rewrite nth_repeat. apply H. lia.
    + intros -> k Hk. apply nth_repeat.
  - intros k. destruct (Nat.lt_ge_cases k 32).
    + apply nth_repeat.
    + apply nth_overflow. rewrite repeat_length. lia.
Qed.

Definition zero_sha256 (bytes : list Z) : list Z := repeat 0 32.

Definition sample_header (bits : Z) : BlockHeader :=
  mk_BlockHeader 1 (repeat 0 32) (repeat 0 32) 0 bits 0 0.

Lemma high_exponent_zero_target_witness :
  (32 <= Z.land (Z.shiftr (bits (sample_header 0x20000000)) 24) 255 /\
   List.length (header_hash zero_sha256 (sample_header 0x20000000)) = 32%nat /\
   Forall is_byte (header_hash zero_sha256 (sample_header 0x20000000))) /\
  (difficulty_to_target (bits (sample_header 0x20000000)) = repeat 0 32 /\
   (meets_difficulty zero_sha256 (sample_header 0x20000000) = true <->
    header_hash zero_sha256 (sample_header 0x20000000) = repeat 0 32)).
Proof.
  assert (Hyp : 32 <= Z.land (Z.shiftr (bits (sample_header 0x20000000)) 24) 255 /\
    List.length (header_hash zero_sha256 (sample_header 0x20000000)) = 32%nat /\
    Forall is_byte (header_hash zero_sha256 (sample_header 0x20000000))).
  { split; [vm_compute; discriminate |]. split; [reflexivity |].
    vm_compute. repeat constructor; discriminate. }
  split; [exact Hyp |].
  destruct Hyp as (H1 & H2 & H3).
  exact (high_exponent_zero_target zero_sha256 (sample_header 0x20000000) H1 H2 H3).
Defined.

(* ------------------------------------------------------------------ *)
(** ** Merkle root *)

Section MerkleProofs.

Variable sha256 : list Z -> list Z.

(** One pass of the code's loop is the spec's pairing step. *)
Lemma merkle_level_spec (l : list (list Z)) :
  merkle_level sha256 l = spec_pair_level sha256 l.
Proof.
  unfold merkle_level, hasher_finalize, hasher_update.
  induction l as [l IH] using (induction_ltof1 _ (@List.length _)).
  destruct l as [|a [|b l]]; [reflexivity | reflexivity |].
  simpl. f_equal. apply IH. unfold ltof. simpl. lia.
Qed.

Lemma spec_pair_level_length (l : list (list Z)) :
  List.length (spec_pair_level sha256 l) = ((List.length l + 1) / 2)%nat.
Proof.
  induction l as [l IH] using (induction_ltof1 _ (@List.length _)).
  destruct l as [|a [|b l]]; [reflexivity | reflexivity |].
  cbn [spec_pair_level List.length]. rewrite IH by (unfold ltof; simpl; lia).
  replace (S (S (List.length l)) + 1)%nat with (List.length l + 1 + 1 * 2)%nat by lia.
  rewrite Nat.div_add by lia. symmetry. apply Nat.add_1_r.
Qed.

Lemma merkle_loop_fold (fuel : nat) (l : list (list Z)) :
  (1 <= List.length l <= fuel + 1)%nat ->
  exists r, merkle_loop sha256 fuel l = [r] /\ merkle_fold sha256 l r.
Proof.
  revert l. induction fuel as [|f IH]; intros l Hl.
  - destruct l as [|h [|? ?]]; simpl in Hl; try lia.
    exists h. split; [reflexivity | constructor].
  - simpl. destruct (Nat.ltb_spec 1 (List.length l)) as [Hlt | Hge].
    + rewrite merkle_level_spec.
      assert (Hlen := spec_pair_level_length l).
      destruct (IH (spec_pair_level sha256 l)) as (r & Hr & Hf).
      { rewrite Hlen. simpl in Hl.
        assert (Hd := Nat.div_mod_eq (List.length l + 1) 2).
        assert (Hm := Nat.mod_upper_bound (List.length l + 1) 2 ltac:(lia)).
        lia. }
      exists r. split; [exact Hr |]. apply merkle_fold_step; assumption.
    + destruct l as [|h [|? ?]]; simpl in *; try lia.
      exists h. split; [reflexivity | constructor].
Qed.

(** The spec's fold determines the root. *)
Lemma merkle_fold_det (l : list (list Z)) (r1 r2 : list Z) :
  merkle_fold sha256 l r1 -> merkle_fold sha256 l r2 -> r1 = r2.
Proof.
  intros H1. revert r2. induction H1 as [h | l r Hlt Hf IH]; intros r2 H2.
  - inversion H2 as [| l' r' Hlt' _]; subst; [reflexivity | simpl in Hlt'; lia].
  - inversion H2 as [h Heq | l' r' _ Hf']; subst.
    + simpl in Hlt. lia.
    + apply IH. exact Hf'.
Qed.

Lemma pad32_length (h : list Z) : List.length (pad32 h) = 32%nat.
Proof.
  unfold pad32. rewrite length_app, length_take, repeat_length. lia.
Qed.

End MerkleProofs.

(** C4: the root of no transaction is 32 zero bytes; of one transaction
    it is that transaction's hash cut or zero-padded to 32 bytes; of two
    or more it is the result of the spec's level-by-level fold (pairs
    hashed as SHA-256(left || right), an odd last element paired with
    itself, until one hash remains) started from the padded hashes. *)
Theorem calculate_merkle_root_spec (sha256 : list Z -> list Z) :
  calculate_merkle_root sha256 [] = repeat 0 32 /\
  (forall tx, calculate_merkle_root sha256 [tx] = pad32 (hash tx)) /\
  (forall txs, (1 < List.length txs)%nat ->
     merkle_fold sha256 (map (fun tx => pad32 (hash tx)) txs)
       (calculate_merkle_root sha256 txs)).
Proof.
  split; [reflexivity |]. split; [reflexivity |].
  intros txs Hlen.
  destruct txs as [|tx txs']; [simpl in Hlen; lia |].
  unfold calculate_merkle_root.
  set (hashes := map (fun tx0 => pad32 (hash tx0)) (tx :: txs')).
  destruct (merkle_loop_fold sha256 (List.length hashes) hashes) as (r & Hr & Hf).
  { unfold hashes. rewrite length_map. simpl. lia. }
  rewrite Hr. exact Hf.
Qed.

Definition sample_tx (b : Z) : NockchainTransaction :=
  mk_NockchainTransaction [] [] [b] 0 None None [] [] 0.

Lemma calculate_merkle_root_spec_witness :
  (1 < List.length [sample_tx 1; sample_tx 2; sample_tx 3])%nat /\
  merkle_fold zero_sha256
    (map (fun tx => pad32 (hash tx)) [sample_tx 1; sample_tx 2; sample_tx 3])
    (calculate_merkle_root zero_sha256 [sample_tx 1; sample_tx 2; sample_tx 3]).
Proof.
  split; [simpl; lia |].
  apply (proj2 (proj2 (calculate_merkle_root_spec zero_sha256))). simpl. lia.
Defined.

(* ------------------------------------------------------------------ *)
(** ** Base58 round trip *)

Section Digits.

Variable b : Z.
Hypothesis Hb : 1 < b.

Definition digit_ok (d : Z) : Prop := 0 <= d < b.

Definition no_leading_zero (ds : list Z) : Prop :=
  match ds with [] => True | d :: _ => d <> 0 end.

Lemma fold_digits_acc (ds : list Z) (acc : Z) :
  fold_left (fun a d => a * b + d) ds acc =
  acc * b ^ Z.of_nat (List.length ds) + from_digits b ds.
Proof.
  unfold from_digits. revert acc.
  induction ds as [|d ds IH]; intros acc; simpl; [lia |].
  rewrite (IH (acc * b + d)), (IH (0 * b + d)).
  rewrite Nat2Z.inj_succ, Z.pow_succ_r by lia. ring.
Qed.

Lemma from_digits_app (ds : list Z) (d : Z) :
  from_digits b (ds ++ [d]) = from_digits b ds * b + d.
Proof. unfold from_digits. rewrite fold_left_app. reflexivity. Qed.

Lemma from_digits_bound (ds : list Z) :
  Forall digit_ok ds ->
  0 <= from_digits b ds < b ^ Z.of_nat (List.length ds).
Proof.
  induction ds as [|x ds IH] using rev_ind; intros Hds; [unfold from_digits; simpl; lia |].
  apply Forall_app in Hds as [Hds Hd]. inversion Hd as [| ? ? Hx _]; subst.
  unfold digit_ok in Hx.
  rewrite from_digits_app, length_app. simpl List.length.
  rewrite Nat2Z.inj_add, Z.pow_add_r by lia. simpl (Z.of_nat 1).
  specialize (IH Hds). nia.
Qed.

Lemma from_digits_pos (d : Z) (ds : list Z) :
  0 < d -> Forall digit_ok ds -> 0 < from_digits b (d :: ds).
Proof.
  intros Hd Hds. unfold from_digits. simpl.
  change (fold_left (fun a x => a * b + x) ds (0 * b + d)) with
    (fold_left (fun a x => a * b + x) ds (0 * b + d)).
  rewrite fold_digits_acc.
  pose proof (from_digits_bound ds Hds).
  assert (0 < b ^ Z.of_nat (List.length ds)) by (apply Z.pow_pos_nonneg; lia).
  nia.
Qed.

Lemma digits_rev_ok (fuel : nat) (n : Z) : Forall digit_ok (digits_rev fuel b n).
Proof.
  revert n. induction fuel as [|f IH]; intros n; simpl; [constructor |].
  destruct (n =? 0); constructor; [| apply IH].
  unfold digit_ok. apply Z.mod_pos_bound. lia.
Qed.

(** Reading the digits back gives the number, when it fits. *)
Lemma from_to_digits (fuel : nat) (n : Z) :
  0 <= n < b ^ Z.of_nat fuel -> from_digits b (to_digits fuel b n) = n.
Proof.
  unfold to_digits. revert n. induction fuel as [|f IH]; intros n Hn.
  - rewrite Z.pow_0_r in Hn. unfold from_digits; simpl. lia.
  - simpl. destruct (Z.eqb_spec n 0) as [-> | Hne]; [reflexivity |].
    simpl. rewrite from_digits_app, IH.
    + pose proof (Z.div_mod n b ltac:(lia)). lia.
    + rewrite Nat2Z.inj_succ, Z.pow_succ_r in Hn by lia.
      split; [apply Z.div_pos; lia |].
      apply Z.div_lt_upper_bound; lia.
Qed.

Lemma to_digits_no_leading_zero (fuel : nat) (n : Z) :
  0 <= n < b ^ Z.of_nat fuel -> no_leading_zero (to_digits fuel b n).
Proof.
  unfold to_digits. revert n. induction fuel as [|f IH]; intros n Hn; simpl; [exact I |].
  destruct (Z.eqb_spec n 0) as [-> | Hne]; [exact I |].
  assert (Hq : 0 <= n / b < b ^ Z.of_nat f).
  { rewrite Nat2Z.inj_succ, Z.pow_succ_r in Hn by lia.
    split; [apply Z.div_pos; lia |]. apply Z.div_lt_upper_bound; lia. }
  specialize (IH (n / b) Hq).
  destruct (rev (digits_rev f b (n / b))) as [|d ds] eqn:Hr; simpl.
  - apply (f_equal (@rev Z)) in Hr. rewrite rev_involutive in Hr. simpl in Hr.
    assert (Hz : n / b = 0).
    { destruct f as [|f']; [rewrite Z.pow_0_r in Hq; lia |].
      simpl in Hr. destruct (Z.eqb_spec (n / b) 0); [assumption | discriminate]. }
    pose proof (Z.div_mod n b ltac:(lia)) as Hdm. rewrite Hz in Hdm. rewrite Hr. simpl. lia.
  - rewrite Hr. exact IH.
Qed.

(** Digits without a leading zero are the digits of their value. *)
Lemma to_from_digits (fuel : nat) (ds : list Z) :
  Forall digit_ok ds -> no_leading_zero ds ->
  from_digits b ds < b ^ Z.of_nat fuel ->
  to_digits fuel b (from_digits b ds) = ds.
Proof.
  unfold to_digits. intros Hds Hnz Hlt.
  rewrite <- (rev_involutive ds) in *.
  remember (rev ds) as r eqn:Hr. clear Hr ds.
  f_equal. revert fuel Hds Hnz Hlt.
  induction r as [|d r IH]; intros fuel Hds Hnz Hlt.
  - destruct fuel; reflexivity.
  - simpl in *. apply Forall_app in Hds as [Hr Hd].
    inversion Hd as [| ? ? Hx _]; subst. unfold digit_ok in Hx.
    rewrite from_digits_app in *.
    set (v := from_digits b (rev r)) in *.
    assert (Hv : 0 <= v < b ^ Z.of_nat (List.length (rev r))) by (apply from_digits_bound; exact Hr).
    assert (Hpos : 0 < v * b + d).
    { destruct (rev r) as [|d0 t] eqn:Hrr; simpl in Hnz.
      - unfold v; simpl. lia.
      - assert (0 < v).
        { unfold v. apply from_digits_pos; [|inversion Hr; assumption].
          inversion Hr as [| ? ? Hd0 _]; subst. unfold digit_ok in Hd0. lia. }
        nia. }
    destruct fuel as [|f]; [simpl in Hlt; lia |].
    simpl. destruct (Z.eqb_spec (v * b + d) 0) as [Hz | _]; [lia |].
    rewrite (Z.add_comm (v * b) d), Z.mod_add, Z.div_add by lia.
    rewrite Z.mod_small, Z.div_small, Z.add_0_l by lia.
    f_equal. apply IH.
    + exact Hr.
    + destruct (rev r); [exact I | exact Hnz].
    + rewrite Nat2Z.inj_succ, Z.pow_succ_r in Hlt by lia. fold v. nia.
Qed.

End Digits.

Lemma b58_table :
  forallb (fun k => bool_decide (b58_digit (b58_char (Z.of_nat k)) = Some (Z.of_nat k)))
    (seq 0 58) = true.
Proof. vm_compute. reflexivity. Qed.

Lemma b58_digit_char (d : Z) : 0 <= d < 58 -> b58_digit (b58_char d) = Some d.
Proof.
  intros Hd.
  assert (Hin : In (Z.to_nat d) (seq 0 58)) by (apply in_seq; lia).
  pose proof (proj1 (forallb_forall _ _) b58_table _ Hin) as H.
  cbv beta in H. rewrite Z2Nat.id in H by lia.
  apply bool_decide_eq_true in H. exact H.
Qed.

Lemma b58_char_not_one (d : Z) : 0 < d < 58 -> b58_char d <> "1"%char.
Proof.
  intros Hd Heq. pose proof (b58_digit_char d ltac:(lia)) as H.
  rewrite Heq in H. vm_compute in H. injection H. lia.
Qed.

Lemma decode_digits_map (ds : list Z) (i : nat) :
  Forall (digit_ok 58) ds -> decode_digits (map b58_char ds) i = inr ds.
Proof.
  revert i. induction ds as [|d ds IH]; intros i Hds; [reflexivity |].
  inversion Hds as [| ? ? Hd Hds']; subst. simpl.
  rewrite b58_digit_char by exact Hd. rewrite IH by exact Hds'. reflexivity.
Qed.

Lemma count_leading_app_repeat {A} `{EqDecision A} (x : A) (k : nat) (l : list A) :
  count_leading x (repeat x k ++ l) = (k + count_leading x l)%nat.
Proof.
  induction k as [|k IH]; [reflexivity |]. simpl.
  rewrite decide_True by reflexivity. rewrite IH. reflexivity.
Qed.

Lemma count_leading_split {A} `{EqDecision A} (x : A) (l : list A) :
  l = repeat x (count_leading x l) ++ drop (count_leading x l) l /\
  match drop (count_leading x l) l with [] => True | y :: _ => y <> x end.
Proof.
  induction l as [|y l IH]; [split; [reflexivity | exact I] |].
  simpl. destruct (decide (y = x)) as [-> | Hne].
  - simpl. destruct IH as [IH1 IH2]. split; [f_equal; exact IH1 | exact IH2].
  - simpl. split; [reflexivity | exact Hne].
Qed.

Lemma drop_repeat_app {A} (x : A) (k : nat) (l : list A) : drop k (repeat x k ++ l) = l.
Proof. apply drop_app_length'. rewrite repeat_length. reflexivity. Qed.

(** [bs58] decoding inverts encoding on byte strings. *)
Lemma bs58_roundtrip (bytes : list Z) :
  Forall (digit_ok 256) bytes -> bs58_decode (bs58_encode bytes) = inr bytes.
Proof.
  intros Hbytes.
  unfold bs58_encode, bs58_decode.
  rewrite list_ascii_of_string_of_list_ascii.
  destruct (count_leading_split 0 bytes) as [Hsplit Hhead].
  set (z := count_leading 0 bytes) in *.
  set (rest := drop z bytes) in *.
  assert (Hrest : Forall (digit_ok 256) rest) by (apply Forall_drop; exact Hbytes).
  assert (Hrest_nz : no_leading_zero rest) by (destruct rest; [exact I | exact Hhead]).
  set (n := from_digits 256 rest).
  assert (Hn : 0 <= n < 256 ^ Z.of_nat (List.length rest)) by (apply from_digits_bound; [lia | exact Hrest]).
  assert (Hlen : (List.length rest <= List.length bytes)%nat).
  { unfold rest. rewrite length_drop. lia. }
  assert (Hn58 : 0 <= n < 58 ^ Z.of_nat (2 * List.length bytes)).
  { split; [lia |].
    apply Z.lt_le_trans with (256 ^ Z.of_nat (List.length rest)); [lia |].
    apply Z.le_trans with (256 ^ Z.of_nat (List.length bytes)).
    - apply Z.pow_le_mono_r; lia.
    - rewrite Nat2Z.inj_mul, Z.pow_mul_r by lia.
      apply Z.pow_le_mono_l. lia. }
  set (ds := to_digits (2 * List.length bytes) 58 n).
  assert (Hds : Forall (digit_ok 58) ds) by (apply Forall_rev, digits_rev_ok; lia).
  assert (Hds_nz : no_leading_zero ds) by (apply to_digits_no_leading_zero; lia).
  assert (Hval : from_digits 58 ds = n) by (apply from_to_digits; lia).
  assert (Hones : count_leading "1"%char (map b58_char ds) = 0%nat).
  { destruct ds as [|d ds'] eqn:Hd; [reflexivity |]. simpl.
    apply Forall_cons_1 in Hds as [Hd0 _]. unfold digit_ok in Hd0. simpl in Hds_nz.
    rewrite decide_False; [reflexivity |].
    apply b58_char_not_one. lia. }
  rewrite count_leading_app_repeat, Hones, Nat.add_0_r, drop_repeat_app.
  rewrite decode_digits_map by exact Hds.
  rewrite Hval.
  rewrite Hsplit at 1. f_equal. f_equal.
  apply to_from_digits; [lia | exact Hrest | exact Hrest_nz |].
  fold n.
  pose proof (from_digits_bound 58 ltac:(lia) ds Hds) as Hb58. rewrite Hval in Hb58.
  rewrite length_app, repeat_length, length_map.
  apply Z.lt_le_trans with (58 ^ Z.of_nat (List.length ds)); [lia |].
  apply Z.le_trans with (256 ^ Z.of_nat (List.length ds)).
  - apply Z.pow_le_mono_l. lia.
  - apply Z.pow_le_mono_r; lia.
Qed.

(** C7: every valid address (a 32-byte public key) survives
    [to_string] then [from_string]; and [from_string] fails with an
    [InvalidAddress] error on every string whose base58 decoding is not
    32 bytes long. *)
Theorem address_string_roundtrip :
  (forall a : Address, valid_address a ->
     Address_from_string (Address_to_string a) = Ok a) /\
  (forall (s : string) (decoded : list Z),
     bs58_decode s = inr decoded -> List.length decoded <> 32%nat ->
     exists msg, Address_from_string s = Err (InvalidAddress msg)).
Proof.
  split.
  - intros [pk] [Hlen Hbytes]. simpl in *.
    unfold Address_from_string, Address_to_string. simpl.
    rewrite bs58_roundtrip by exact Hbytes.
    rewrite Hlen. reflexivity.
  - intros s decoded Hdec Hlen. unfold Address_from_string. rewrite Hdec.
    apply Nat.eqb_neq in Hlen. rewrite Hlen. simpl. eauto.
Qed.

(* ------------------------------------------------------------------ *)
(** ** The ledger invariant *)

Lemma usum_insert_None (a : Address) (c : bool) (m : gmap N Note) (i : N) (n : Note) :
  m !! i = None -> usum a c (<[i := n]> m) = (contrib a c n + usum a c m)%N.
Proof.
  intros Hi. unfold usum. rewrite map_fold_insert_L; [reflexivity | | exact Hi].
  intros. lia.
Qed.

Lemma usum_insert_Some (a : Address) (c : bool) (m : gmap N Note) (i : N) (n n' : Note) :
  m !! i = Some n ->
  (usum a c (<[i := n']> m) + contrib a c n = usum a c m + contrib a c n')%N.
Proof.
  intros Hi.
  rewrite <- (insert_delete_id m i n Hi) at 2.
  rewrite <- insert_delete_eq.
  rewrite !usum_insert_None by apply lookup_delete_eq. lia.
Qed.

Lemma usum_empty (a : Address) (c : bool) : usum a c ∅ = 0%N.
Proof. unfold usum. apply map_fold_empty. Qed.

Lemma ledger_inv_new : ledger_inv BalanceManager_new.
Proof.
  intros a. unfold unspent_sum, get_balance. simpl.
  rewrite !usum_empty, lookup_empty. split; reflexivity.
Qed.

Lemma contrib_set_spent (a : Address) (c : bool) (n : Note) : contrib a c (set_spent n) = 0%N.
Proof. unfold contrib. simpl. rewrite andb_false_r. reflexivity. Qed.

Lemma contrib_other (a : Address) (c : bool) (n : Note) :
  note_address n <> a -> contrib a c n = 0%N.
Proof. intros Hne. unfold contrib. rewrite bool_decide_eq_false_2 by exact Hne. reflexivity. Qed.

(** The bucket a note counts in is the one [add_note] and [spend_note]
    update. *)
Lemma contrib_own (n : Note) (c : bool) :
  spent n = false ->
  contrib (note_address n) c n =
    if Bool.eqb (bool_decide (is_Some (block_height n))) c then note_amount n else 0%N.
Proof.
  intros Hs. unfold contrib. rewrite bool_decide_eq_true_2 by reflexivity.
  rewrite Hs. reflexivity.
Qed.

Lemma add_note_preserves (bm : BalanceManager) (n : Note) :
  ledger_inv bm -> notes bm !! note_id n = None -> spent n = false ->
  (bucket (get_balance bm (note_address n)) (block_height n) + note_amount n < u64_modulus)%N ->
  ledger_inv (fst (add_note bm n)).
Proof.
  intros Hinv Hfresh Hs Hov a.
  unfold unspent_sum, get_balance, add_note. simpl.
  rewrite !usum_insert_None by exact Hfresh.
  destruct (decide (note_address n = a)) as [<- | Hne].
  - rewrite lookup_insert_eq. simpl.
    rewrite !contrib_own by exact Hs.
    destruct (Hinv (note_address n)) as [Hc Hu].
    unfold unspent_sum, get_balance in Hc, Hu.
    unfold get_balance, bucket in Hov.
    destruct (block_height n) as [h|]; simpl in *.
    + rewrite u64_add_small by exact Hov. split; lia.
    + rewrite u64_add_small by exact Hov. split; lia.
  - rewrite lookup_insert_ne by exact Hne.
    rewrite !contrib_other by exact Hne.
    apply Hinv.
Qed.

Lemma spend_note_preserves (bm : BalanceManager) (id : N) :
  ledger_inv bm -> ledger_inv (fst (spend_note bm id)).
Proof.
  intros Hinv. unfold spend_note.
  destruct (notes bm !! id) as [n|] eqn:Hn; [| exact Hinv].
  destruct (spent n) eqn:Hs; [exact Hinv |].
  assert (Hsum : forall a c,
    (usum a c (<[id := set_spent n]> (notes bm)) + contrib a c n = usum a c (notes bm))%N).
  { intros a c. rewrite (usum_insert_Some a c _ id n (set_spent n) Hn), contrib_set_spent. lia. }
  destruct (address_balances bm !! note_address n) as [bal|] eqn:Hb; intros a;
    unfold unspent_sum, get_balance; simpl;
    pose proof (Hsum a true) as Ht; pose proof (Hsum a false) as Hf;
    destruct (Hinv a) as [Hc Hu]; unfold unspent_sum, get_balance in Hc, Hu.
  - destruct (decide (note_address n = a)) as [<- | Hne].
    + rewrite lookup_insert_eq. rewrite Hb in Hc, Hu. simpl in Hc, Hu.
      rewrite !contrib_own in Ht, Hf by exact Hs.
      unfold u64_saturating_sub.
      destruct (block_height n); simpl in *; split; lia.
    + rewrite lookup_insert_ne by exact Hne.
      rewrite !contrib_other in Ht, Hf by exact Hne. split; lia.
  - destruct (decide (note_address n = a)) as [<- | Hne].
    + rewrite Hb in Hc, Hu |- *. simpl in *. split; lia.
    + rewrite !contrib_other in Ht, Hf by exact Hne. split; lia.
Qed.

Lemma ledger_inv_run (bm : BalanceManager) (ops : list LedgerOp) :
  ledger_inv bm -> ops_ok bm ops = true ->
  forall k, ledger_inv (run_ledger bm (take k ops)).
Proof.
  revert bm. induction ops as [|op ops IH]; intros bm Hinv Hok k.
  - rewrite take_nil. exact Hinv.
  - destruct k as [|k]; [exact Hinv |].
    simpl. unfold run_ledger in *. simpl.
    destruct op as [n | id]; simpl in Hok.
    + apply andb_prop in Hok as [Hok Hrest].
      apply andb_prop in Hok as [Hok Hov].
      apply andb_prop in Hok as [Hfresh Hs].
      apply IH; [| exact Hrest].
      apply add_note_preserves; [exact Hinv | | | ].
      * apply bool_decide_eq_true in Hfresh. exact Hfresh.
      * apply negb_true_iff in Hs. exact Hs.
      * apply bool_decide_eq_true in Hov. exact Hov.
    + apply IH; [| exact Hok]. apply spend_note_preserves. exact Hinv.
Qed.

(** C1 (amended): starting from [BalanceManager::new()], for every
    sequence of [add_note] / [spend_note] calls in which each added note
    has an id not yet in the store, is unspent when added, and does not
    overflow its [u64] balance bucket, after every prefix of the
    sequence and for every address the unspent confirmed notes sum to
    the [confirmed] balance and the unspent unconfirmed notes to the
    [unconfirmed] balance. *)
Theorem ledger_invariant_fresh_notes (ops : list LedgerOp) :
  ops_ok BalanceManager_new ops = true ->
  forall k, ledger_inv (run_ledger BalanceManager_new (take k ops)).
Proof. intros Hok. apply ledger_inv_run; [exact ledger_inv_new | exact Hok]. Qed.

Definition sample_address : Address := mk_Address (repeat 0 32).

Definition sample_note (id : N) (amount : N) (bh : option N) : Note :=
  mk_Note id sample_address amount bh "" 0%N false false 0.

Definition sample_ops : list LedgerOp :=
  [AddNote (sample_note 1 100 (Some 7%N)); AddNote (sample_note 2 50 None);
   SpendNote 1; SpendNote 1; SpendNote 3].

Lemma ledger_invariant_fresh_notes_witness :
  ops_ok BalanceManager_new sample_ops = true /\
  forall k, ledger_inv (run_ledger BalanceManager_new (take k sample_ops)).
Proof.
  assert (H : ops_ok BalanceManager_new sample_ops = true) by (vm_compute; reflexivity).
  split; [exact H |].
  exact (ledger_invariant_fresh_notes sample_ops H).
Defined.

(** C1 (counterexample): adding the same note twice leaves one note of
    100 in the store but a confirmed balance of 200. *)
Theorem ledger_invariant_duplicate_id_fails :
  ~ ledger_inv (run_ledger BalanceManager_new
                  [AddNote (sample_note 1 100 (Some 7%N)); AddNote (sample_note 1 100 (Some 7%N))]).
Proof.
  intros H. destruct (H sample_address) as [Hc _].
  vm_compute in Hc. discriminate.
Qed.

(* ================================================================== *)
(** * Further properties of the wallet API *)

(* ------------------------------------------------------------------ *)
(** ** Map sums *)

Section NsumLemmas.

Context {K V : Type} `{Countable K}.

Lemma nsum_empty (f : V -> N) : nsum f (∅ : gmap K V) = 0%N.
Proof. apply map_fold_empty. Qed.

Lemma nsum_insert_None (f : V -> N) (m : gmap K V) (i : K) (x : V) :
  m !! i = None -> nsum f (<[i := x]> m) = (f x + nsum f m)%N.
Proof.
  intros Hi. unfold nsum. rewrite map_fold_insert_L; [reflexivity | | exact Hi].
  intros. lia.
Qed.

Lemma nsum_delete (f : V -> N) (m : gmap K V) (i : K) (x : V) :
  m !! i = Some x -> nsum f m = (f x + nsum f (delete i m))%N.
Proof.
  intros Hi. rewrite <- (insert_delete_id m i x Hi) at 1.
  apply nsum_insert_None, lookup_delete_eq.
Qed.

Lemma nsum_insert_Some (f : V -> N) (m : gmap K V) (i : K) (x y : V) :
  m !! i = Some x -> (nsum f (<[i := y]> m) + f x = nsum f m + f y)%N.
Proof.
  intros Hi. rewrite (nsum_delete f m i x Hi).
  rewrite <- insert_delete_eq, nsum_insert_None by apply lookup_delete_eq. lia.
Qed.

Lemma nsum_zero (f : V -> N) (m : gmap K V) :
  map_Forall (fun _ x => f x = 0%N) m -> nsum f m = 0%N.
Proof.
  induction m as [|i x m Hi IH] using map_ind; intros Hall; [apply nsum_empty |].
  rewrite nsum_insert_None by exact Hi.
  apply map_Forall_insert in Hall as [Hx Hm]; [| exact Hi].
  rewrite Hx, IH by exact Hm. reflexivity.
Qed.

End NsumLemmas.

Lemma nsum_insert_default (f : Balance -> N) (m : gmap Address Balance) (k : Address) (v : Balance) :
  f Balance_new = 0%N ->
  (nsum f (<[k := v]> m) + f (default Balance_new (m !! k)) = nsum f m + f v)%N.
Proof.
  intros H0. destruct (m !! k) as [b|] eqn:Hk; simpl.
  - apply nsum_insert_Some. exact Hk.
  - rewrite nsum_insert_None by exact Hk. rewrite H0. lia.
Qed.

Lemma usum_ge (a : Address) (c : bool) (m : gmap N Note) (i : N) (n : Note) :
  m !! i = Some n -> (contrib a c n <= usum a c m)%N.
Proof.
  intros Hi. change (usum a c m) with (nsum (contrib a c) m).
  rewrite (nsum_delete _ m i n Hi). lia.
Qed.

(* ------------------------------------------------------------------ *)
(** ** Ledger well-formedness *)

Lemma ledger_wf_new : ledger_wf BalanceManager_new.
Proof.
  split.
  - intros id n H. simpl in H. rewrite lookup_empty in H. discriminate.
  - apply map_Forall_empty.
Qed.

Lemma add_note_wf (bm : BalanceManager) (n : Note) :
  ledger_wf bm -> ledger_wf (fst (add_note bm n)).
Proof.
  intros [Hcov Hlock]. unfold add_note, ledger_wf; cbn [fst notes address_balances].
  set (b0 := default Balance_new (address_balances bm !! note_address n)).
  assert (Hb0 : locked b0 = 0%N).
  { unfold b0. destruct (address_balances bm !! note_address n) as [b|] eqn:Hb; [| reflexivity].
    exact (Hlock _ _ Hb). }
  split.
  - intros id x Hx. apply lookup_insert_is_Some'.
    destruct (decide (note_id n = id)) as [<- | Hne].
    + rewrite lookup_insert_eq in Hx. injection Hx as <-. left. reflexivity.
    + rewrite lookup_insert_ne in Hx by exact Hne. right. exact (Hcov _ _ Hx).
  - apply map_Forall_insert_2; [| exact Hlock].
    destruct (block_height n); exact Hb0.
Qed.

Lemma spend_note_wf (bm : BalanceManager) (id : N) :
  ledger_wf bm -> ledger_wf (fst (spend_note bm id)).
Proof.
  intros [Hcov Hlock]. unfold spend_note.
  destruct (notes bm !! id) as [n|] eqn:Hn; [| split; assumption].
  destruct (spent n); [split; assumption |].
  assert (Hcov' : forall id' x, <[id := set_spent n]> (notes bm) !! id' = Some x ->
            is_Some (address_balances bm !! note_address x)).
  { intros id' x Hx. destruct (decide (id = id')) as [<- | Hne].
    - rewrite lookup_insert_eq in Hx. injection Hx as <-. exact (Hcov _ _ Hn).
    - rewrite lookup_insert_ne in Hx by exact Hne. exact (Hcov _ _ Hx). }
  destruct (address_balances bm !! note_address n) as [b|] eqn:Hb;
    unfold ledger_wf; cbn [fst notes address_balances].
  - split.
    + intros id' x Hx. apply lookup_insert_is_Some'. right. exact (Hcov' _ _ Hx).
    + apply map_Forall_insert_2; [| exact Hlock].
      pose proof (Hlock _ _ Hb). destruct (block_height n); assumption.
  - split; assumption.
Qed.

Lemma ledger_wf_run (bm : BalanceManager) (ops : list LedgerOp) :
  ledger_wf bm -> ledger_wf (run_ledger bm ops).
Proof.
  unfold run_ledger. revert bm. induction ops as [|op ops IH]; intros bm Hwf; [exact Hwf |].
  simpl. apply IH. destruct op; simpl; [apply add_note_wf | apply spend_note_wf]; exact Hwf.
Qed.

(** The ledger API never reaches the [Storage] error of [spend_note]:
    after any sequence of [add_note] / [spend_note] calls from
    [BalanceManager::new()], every stored note's address has a balance
    entry, so [spend_note] fails only with [KeyNotFound] or
    [Transaction]. *)
Theorem spend_note_never_storage_error (ops : list LedgerOp) (id : N) (msg : string) :
  snd (spend_note (run_ledger BalanceManager_new ops) id) <> Err (Storage msg).
Proof.
  destruct (ledger_wf_run BalanceManager_new ops ledger_wf_new) as [Hcov _].
  set (bm := run_ledger BalanceManager_new ops) in *.
  unfold spend_note.
  destruct (notes bm !! id) as [n|] eqn:Hn; [| discriminate].
  destruct (spent n); [discriminate |].
  destruct (Hcov _ _ Hn) as [b Hb]. rewrite Hb. discriminate.
Qed.

(** Nothing in the ledger API locks funds: after any sequence of
    [add_note] / [spend_note] calls from [BalanceManager::new()], every
    address has [locked = 0], so [Balance::available()] equals
    [confirmed]. *)
Theorem ledger_locked_zero (ops : list LedgerOp) (a : Address) :
  locked (get_balance (run_ledger BalanceManager_new ops) a) = 0%N /\
  Balance_available (get_balance (run_ledger BalanceManager_new ops) a) =
    confirmed (get_balance (run_ledger BalanceManager_new ops) a).
Proof.
  destruct (ledger_wf_run BalanceManager_new ops ledger_wf_new) as [_ Hlock].
  set (bm := run_ledger BalanceManager_new ops) in *.
  assert (H : locked (get_balance bm a) = 0%N).
  { unfold get_balance. destruct (address_balances bm !! a) as [b|] eqn:Hb; [| reflexivity].
    exact (Hlock _ _ Hb). }
  split; [exact H |]. unfold Balance_available, u64_saturating_sub. rewrite H. lia.
Qed.

(* ------------------------------------------------------------------ *)
(** ** Spending and totals *)

(** A successful [spend_note]: the note stays in the store with
    [spent = true], only its balance bucket is decremented (saturating),
    every other note and address is left alone, and spending the same
    note again fails with a [Transaction] error. *)
Theorem spend_note_success (bm : BalanceManager) (id : N) (n : Note) (b : Balance) :
  notes bm !! id = Some n -> spent n = false ->
  address_balances bm !! note_address n = Some b ->
  snd (spend_note bm id) = Ok tt /\
  notes (fst (spend_note bm id)) !! id = Some (set_spent n) /\
  (forall id', id' <> id -> notes (fst (spend_note bm id)) !! id' = notes bm !! id') /\
  get_balance (fst (spend_note bm id)) (note_address n) =
    match block_height n with
    | Some _ => mk_Balance (u64_saturating_sub (confirmed b) (note_amount n))
                  (unconfirmed b) (locked b)
    | None => mk_Balance (confirmed b)
                (u64_saturating_sub (unconfirmed b) (note_amount n)) (locked b)
    end /\
  (forall a, a <> note_address n ->
     get_balance (fst (spend_note bm id)) a = get_balance bm a) /\
  exists msg, snd (spend_note (fst (spend_note bm id)) id) = Err (Transaction msg).
Proof.
  intros Hn Hs Hb.
  set (b' := match block_height n with
             | Some _ => mk_Balance (u64_saturating_sub (confirmed b) (note_amount n))
                           (unconfirmed b) (locked b)
             | None => mk_Balance (confirmed b)
                         (u64_saturating_sub (unconfirmed b) (note_amount n)) (locked b)
             end).
  assert (E : spend_note bm id =
    (mk_BalanceManager (<[id := set_spent n]> (notes bm))
       (<[note_address n := b']> (address_balances bm)), Ok tt)).
  { unfold spend_note. rewrite Hn, Hs, Hb. reflexivity. }
  rewrite E. cbn [fst snd notes address_balances].
  split; [reflexivity |]. split; [apply lookup_insert_eq |]. split.
  { intros id' Hne. apply lookup_insert_ne. congruence. }
  split; [unfold get_balance; cbn [address_balances]; rewrite lookup_insert_eq; reflexivity |].
  split.
  { intros a Hne. unfold get_balance; cbn [address_balances].
    rewrite lookup_insert_ne by congruence. reflexivity. }
  unfold spend_note. cbn [notes]. rewrite lookup_insert_eq. simpl. eauto.
Qed.

Lemma spend_note_success_witness :
  (notes (fst (add_note BalanceManager_new (sample_note 1 100 (Some 7%N)))) !! 1%N =
     Some (sample_note 1 100 (Some 7%N)) /\
   spent (sample_note 1 100 (Some 7%N)) = false /\
   address_balances (fst (add_note BalanceManager_new (sample_note 1 100 (Some 7%N))))
     !! note_address (sample_note 1 100 (Some 7%N)) = Some (mk_Balance 100 0 0)) /\
  (snd (spend_note (fst (add_note BalanceManager_new (sample_note 1 100 (Some 7%N)))) 1%N) = Ok tt /\
   notes (fst (spend_note (fst (add_note BalanceManager_new (sample_note 1 100 (Some 7%N)))) 1%N))
     !! 1%N = Some (set_spent (sample_note 1 100 (Some 7%N))) /\
   (forall id', id' <> 1%N ->
      notes (fst (spend_note (fst (add_note BalanceManager_new (sample_note 1 100 (Some 7%N)))) 1%N))
        !! id' = notes (fst (add_note BalanceManager_new (sample_note 1 100 (Some 7%N)))) !! id') /\
   get_balance (fst (spend_note (fst (add_note BalanceManager_new (sample_note 1 100 (Some 7%N)))) 1%N))
     (note_address (sample_note 1 100 (Some 7%N))) =
     match block_height (sample_note 1 100 (Some 7%N)) with
     | Some _ => mk_Balance (u64_saturating_sub (confirmed (mk_Balance 100 0 0))
                   (note_amount (sample_note 1 100 (Some 7%N))))
                   (unconfirmed (mk_Balance 100 0 0)) (locked (mk_Balance 100 0 0))
     | None => mk_Balance (confirmed (mk_Balance 100 0 0))
                 (u64_saturating_sub (unconfirmed (mk_Balance 100 0 0))
                    (note_amount (sample_note 1 100 (Some 7%N))))
                 (locked (mk_Balance 100 0 0))
     end /\
   (forall a, a <> note_address (sample_note 1 100 (Some 7%N)) ->
      get_balance (fst (spend_note (fst (add_note BalanceManager_new (sample_note 1 100 (Some 7%N)))) 1%N)) a =
      get_balance (fst (add_note BalanceManager_new (sample_note 1 100 (Some 7%N)))) a) /\
   exists msg, snd (spend_note (fst (spend_note (fst (add_note BalanceManager_new
                  (sample_note 1 100 (Some 7%N)))) 1%N)) 1%N) = Err (Transaction msg)).
Proof.
  assert (H1 : notes (fst (add_note BalanceManager_new (sample_note 1 100 (Some 7%N)))) !! 1%N =
                 Some (sample_note 1 100 (Some 7%N))) by reflexivity.
  assert (H2 : spent (sample_note 1 100 (Some 7%N)) = false) by reflexivity.
  assert (H3 : address_balances (fst (add_note BalanceManager_new (sample_note 1 100 (Some 7%N))))
     !! note_address (sample_note 1 100 (Some 7%N)) = Some (mk_Balance 100 0 0)) by reflexivity.
  split; [exact (conj H1 (conj H2 H3)) |].
  exact (spend_note_success _ 1%N _ _ H1 H2 H3).
Defined.

(** Spending a note right after adding it undoes the addition: for an
    unspent note whose amount fits its [u64] bucket, [spend_note(note.id)]
    after [add_note(note)] succeeds, leaves the note stored as spent, and
    every address's balance is back to what it was before [add_note]. *)
Theorem add_note_then_spend_restores (bm : BalanceManager) (n : Note) :
  spent n = false ->
  (bucket (get_balance bm (note_address n)) (block_height n) + note_amount n < u64_modulus)%N ->
  snd (spend_note (fst (add_note bm n)) (note_id n)) = Ok tt /\
  notes (fst (spend_note (fst (add_note bm n)) (note_id n))) =
    <[note_id n := set_spent n]> (notes bm) /\
  (forall a, get_balance (fst (spend_note (fst (add_note bm n)) (note_id n))) a =
             get_balance bm a).
Proof.
  intros Hs Hov.
  unfold get_balance in Hov.
  set (b0 := default Balance_new (address_balances bm !! note_address n)) in *.
  unfold add_note, spend_note. fold b0. cbn [fst snd notes address_balances].
  rewrite lookup_insert_eq, Hs, lookup_insert_eq.
  unfold bucket in Hov.
  destruct (block_height n) as [h|] eqn:Hbh; cbn [fst snd notes address_balances confirmed unconfirmed locked].
  - rewrite u64_add_small by exact Hov.
    split; [reflexivity |]. split; [apply insert_insert_eq |].
    intros a. unfold get_balance; cbn [address_balances].
    destruct (decide (a = note_address n)) as [-> | Hne].
    + rewrite lookup_insert_eq. simpl. unfold u64_saturating_sub.
      rewrite N.add_sub. fold b0. destruct b0; reflexivity.
    + rewrite !lookup_insert_ne by congruence. reflexivity.
  - rewrite u64_add_small by exact Hov.
    split; [reflexivity |]. split; [apply insert_insert_eq |].
    intros a. unfold get_balance; cbn [address_balances].
    destruct (decide (a = note_address n)) as [-> | Hne].
    + rewrite lookup_insert_eq. simpl. unfold u64_saturating_sub.
      rewrite N.add_sub. fold b0. destruct b0; reflexivity.
    + rewrite !lookup_insert_ne by congruence. reflexivity.
Qed.

Lemma add_note_then_spend_restores_witness :
  (spent (sample_note 1 100 None) = false /\
   (bucket (get_balance BalanceManager_new (note_address (sample_note 1 100 None)))
      (block_height (sample_note 1 100 None)) + note_amount (sample_note 1 100 None) < u64_modulus)%N) /\
  (snd (spend_note (fst (add_note BalanceManager_new (sample_note 1 100 None)))
         (note_id (sample_note 1 100 None))) = Ok tt /\
   notes (fst (spend_note (fst (add_note BalanceManager_new (sample_note 1 100 None)))
                (note_id (sample_note 1 100 None)))) =
     <[note_id (sample_note 1 100 None) := set_spent (sample_note 1 100 None)]>
       (notes BalanceManager_new) /\
   (forall a, get_balance (fst (spend_note (fst (add_note BalanceManager_new (sample_note 1 100 None)))
                (note_id (sample_note 1 100 None)))) a = get_balance BalanceManager_new a)).
Proof.
  assert (H1 : spent (sample_note 1 100 None) = false) by reflexivity.
  assert (H2 : (bucket (get_balance BalanceManager_new (note_address (sample_note 1 100 None)))
      (block_height (sample_note 1 100 None)) + note_amount (sample_note 1 100 None) < u64_modulus)%N)
    by (vm_compute; reflexivity).
  split; [exact (conj H1 H2) |].
  exact (add_note_then_spend_restores BalanceManager_new (sample_note 1 100 None) H1 H2).
Defined.

Lemma get_total_balance_nsum (bm : BalanceManager) :
  get_total_balance bm =
    mk_Balance (nsum confirmed (address_balances bm) mod u64_modulus)
      (nsum unconfirmed (address_balances bm) mod u64_modulus)
      (nsum locked (address_balances bm) mod u64_modulus).
Proof.
  unfold get_total_balance. generalize (address_balances bm) as m. intros m.
  induction m as [|k x m Hk IH] using map_ind.
  - rewrite map_fold_empty, !nsum_empty. reflexivity.
  - rewrite map_fold_insert_L; [| | exact Hk].
    + rewrite IH, !nsum_insert_None by exact Hk. unfold u64_add. cbn [confirmed unconfirmed locked].
      rewrite !N.Div0.add_mod_idemp_l. f_equal; f_equal; lia.
    + intros j1 j2 z1 z2 y _ _ _. unfold u64_add. cbn [confirmed unconfirmed locked].
      rewrite !N.Div0.add_mod_idemp_l. f_equal; f_equal; lia.
Qed.

Lemma all_unspent_sum_nsum (bm : BalanceManager) (c : bool) :
  all_unspent_sum bm c = nsum (note_bucket_amount c) (notes bm).
Proof. reflexivity. Qed.

Lemma contrib_own_bucket (n : Note) (c : bool) :
  contrib (note_address n) c n = note_bucket_amount c n.
Proof. unfold contrib. rewrite bool_decide_eq_true_2 by reflexivity. reflexivity. Qed.

Lemma add_note_total (bm : BalanceManager) (n : Note) :
  total_inv bm -> notes bm !! note_id n = None -> spent n = false ->
  (bucket (get_balance bm (note_address n)) (block_height n) + note_amount n < u64_modulus)%N ->
  total_inv (fst (add_note bm n)).
Proof.
  intros [Hc Hu] Hfresh Hs Hov.
  unfold total_inv. rewrite !all_unspent_sum_nsum in *.
  unfold add_note. cbn [fst notes address_balances].
  rewrite !(nsum_insert_None _ (notes bm)) by exact Hfresh.
  unfold get_balance, bucket in Hov.
  set (b0 := default Balance_new (address_balances bm !! note_address n)) in *.
  assert (Bt : note_bucket_amount true n =
                 match block_height n with Some _ => note_amount n | None => 0%N end)
    by (unfold note_bucket_amount; rewrite Hs; destruct (block_height n); reflexivity).
  assert (Bf : note_bucket_amount false n =
                 match block_height n with Some _ => 0%N | None => note_amount n end)
    by (unfold note_bucket_amount; rewrite Hs; destruct (block_height n); reflexivity).
  rewrite Bt, Bf.
  destruct (block_height n) as [h|] eqn:Hbh.
  - rewrite u64_add_small by exact Hov.
    match goal with |- nsum _ (<[_ := ?v]> _) = _ /\ _ => set (b' := v) end.
    pose proof (nsum_insert_default confirmed (address_balances bm) (note_address n) b' eq_refl) as H1.
    pose proof (nsum_insert_default unconfirmed (address_balances bm) (note_address n) b' eq_refl) as H2.
    fold b0 in H1, H2.
    assert (Cb : confirmed b' = match block_height n with
                                | Some _ => (confirmed b0 + note_amount n)%N
                                | None => confirmed b0 end) by (rewrite Hbh; reflexivity).
    assert (Ub : unconfirmed b' = match block_height n with
                                  | Some _ => unconfirmed b0
                                  | None => (unconfirmed b0 + note_amount n)%N end)
      by (rewrite Hbh; reflexivity).
    rewrite Hbh in Cb, Ub. rewrite Cb in H1. rewrite Ub in H2.
    split; lia.
  - rewrite u64_add_small by exact Hov.
    match goal with |- nsum _ (<[_ := ?v]> _) = _ /\ _ => set (b' := v) end.
    pose proof (nsum_insert_default confirmed (address_balances bm) (note_address n) b' eq_refl) as H1.
    pose proof (nsum_insert_default unconfirmed (address_balances bm) (note_address n) b' eq_refl) as H2.
    fold b0 in H1, H2.
    assert (Cb : confirmed b' = match block_height n with
                                | Some _ => (confirmed b0 + note_amount n)%N
                                | None => confirmed b0 end) by (rewrite Hbh; reflexivity).
    assert (Ub : unconfirmed b' = match block_height n with
                                  | Some _ => unconfirmed b0
                                  | None => (unconfirmed b0 + note_amount n)%N end)
      by (rewrite Hbh; reflexivity).
    rewrite Hbh in Cb, Ub. rewrite Cb in H1. rewrite Ub in H2.
    split; lia.
Qed.

Lemma spend_note_total (bm : BalanceManager) (id : N) :
  ledger_inv bm -> total_inv bm -> total_inv (fst (spend_note bm id)).
Proof.
  intros Hinv [Hc Hu]. unfold spend_note.
  destruct (notes bm !! id) as [n|] eqn:Hn; [| split; assumption].
  destruct (spent n) eqn:Hs; [split; assumption |].
  pose proof (nsum_insert_Some (note_bucket_amount true) (notes bm) id n (set_spent n) Hn) as Nt.
  pose proof (nsum_insert_Some (note_bucket_amount false) (notes bm) id n (set_spent n) Hn) as Nf.
  assert (Hz : forall c, note_bucket_amount c (set_spent n) = 0%N) by reflexivity.
  rewrite !Hz in Nt, Nf.
  destruct (Hinv (note_address n)) as [Hic Hiu]. unfold unspent_sum in Hic, Hiu.
  pose proof (usum_ge (note_address n) true _ id n Hn) as Gt.
  pose proof (usum_ge (note_address n) false _ id n Hn) as Gf.
  rewrite !contrib_own_bucket in Gt, Gf.
  assert (Bt : note_bucket_amount true n =
                 match block_height n with Some _ => note_amount n | None => 0%N end)
    by (unfold note_bucket_amount; rewrite Hs; destruct (block_height n); reflexivity).
  assert (Bf : note_bucket_amount false n =
                 match block_height n with Some _ => 0%N | None => note_amount n end)
    by (unfold note_bucket_amount; rewrite Hs; destruct (block_height n); reflexivity).
  rewrite Bt in Nt, Gt. rewrite Bf in Nf, Gf.
  rewrite !all_unspent_sum_nsum in Hc, Hu.
  unfold total_inv. rewrite !all_unspent_sum_nsum.
  destruct (address_balances bm !! note_address n) as [b|] eqn:Hb;
    cbn [fst notes address_balances].
  - unfold get_balance in Hic, Hiu. rewrite Hb in Hic, Hiu. simpl in Hic, Hiu.
    match goal with |- nsum _ (<[_ := ?v]> _) = _ /\ _ => set (b' := v) end.
    pose proof (nsum_insert_Some confirmed (address_balances bm) (note_address n) b b' Hb) as H1.
    pose proof (nsum_insert_Some unconfirmed (address_balances bm) (note_address n) b b' Hb) as H2.
    assert (Cb : confirmed b' = match block_height n with
                                | Some _ => (confirmed b - note_amount n)%N
                                | None => confirmed b end)
      by (unfold b'; destruct (block_height n); reflexivity).
    assert (Ub : unconfirmed b' = match block_height n with
                                  | Some _ => unconfirmed b
                                  | None => (unconfirmed b - note_amount n)%N end)
      by (unfold b'; destruct (block_height n); reflexivity).
    rewrite Cb in H1. rewrite Ub in H2.
    destruct (block_height n); split; lia.
  - unfold get_balance in Hic, Hiu. rewrite Hb in Hic, Hiu. simpl in Hic, Hiu.
    destruct (block_height n); split; lia.
Qed.

Lemma total_inv_run (bm : BalanceManager) (ops : list LedgerOp) :
  ledger_inv bm -> total_inv bm -> ops_ok bm ops = true -> total_inv (run_ledger bm ops).
Proof.
  unfold run_ledger. revert bm. induction ops as [|op ops IH]; intros bm Hinv Htot Hok; [exact Htot |].
  simpl. destruct op as [n | id]; simpl in Hok.
  - apply andb_prop in Hok as [Hok Hrest].
    apply andb_prop in Hok as [Hok Hov].
    apply andb_prop in Hok as [Hfresh Hs].
    apply bool_decide_eq_true in Hfresh, Hov. apply negb_true_iff in Hs.
    apply IH; [| | exact Hrest].
    + apply add_note_preserves; assumption.
    + apply add_note_total; assumption.
  - apply IH; [| | exact Hok].
    + apply spend_note_preserves. exact Hinv.
    + apply spend_note_total; assumption.
Qed.

(** [get_total_balance] adds up the notes: after a sequence of
    [add_note] / [spend_note] calls from [BalanceManager::new()] that
    adds only fresh, unspent notes without overflowing a balance bucket,
    the total's [confirmed] (resp. [unconfirmed]) is the sum, over all
    addresses, of the unspent notes with (resp. without) [block_height],
    modulo [2^64], and its [locked] is 0. *)
Theorem get_total_balance_unspent (ops : list LedgerOp) :
  ops_ok BalanceManager_new ops = true ->
  get_total_balance (run_ledger BalanceManager_new ops) =
    mk_Balance (all_unspent_sum (run_ledger BalanceManager_new ops) true mod u64_modulus)
      (all_unspent_sum (run_ledger BalanceManager_new ops) false mod u64_modulus) 0.
Proof.
  intros Hok.
  destruct (total_inv_run BalanceManager_new ops ledger_inv_new
              (conj eq_refl eq_refl) Hok) as [Hc Hu].
  destruct (ledger_wf_run BalanceManager_new ops ledger_wf_new) as [_ Hlock].
  rewrite get_total_balance_nsum, Hc, Hu, (nsum_zero locked _ Hlock).
  reflexivity.
Qed.

Lemma get_total_balance_unspent_witness :
  ops_ok BalanceManager_new sample_ops = true /\
  get_total_balance (run_ledger BalanceManager_new sample_ops) =
    mk_Balance (all_unspent_sum (run_ledger BalanceManager_new sample_ops) true mod u64_modulus)
      (all_unspent_sum (run_ledger BalanceManager_new sample_ops) false mod u64_modulus) 0.
Proof.
  assert (H : ops_ok BalanceManager_new sample_ops = true) by (vm_compute; reflexivity).
  split; [exact H |]. exact (get_total_balance_unspent sample_ops H).
Defined.

Lemma spend_note_dom (bm : BalanceManager) (id : N) :
  dom (notes (fst (spend_note bm id))) = dom (notes bm).
Proof.
  unfold spend_note.
  destruct (notes bm !! id) as [n|] eqn:Hn; [| reflexivity].
  destruct (spent n); [reflexivity |].
  assert (Hin : id ∈ dom (notes bm)) by (eapply elem_of_dom_2; exact Hn).
  destruct (address_balances bm !! note_address n); cbn [fst notes];
    rewrite dom_insert_L; set_solver.
Qed.

Lemma dom_run (bm : BalanceManager) (ops : list LedgerOp) :
  dom (notes (run_ledger bm ops)) = dom (notes bm) ∪ added_ids ops.
Proof.
  unfold run_ledger. revert bm. induction ops as [|op ops IH]; intros bm.
  - unfold added_ids. simpl. set_solver.
  - simpl. rewrite IH. destruct op as [n | id]; unfold added_ids; simpl.
    + unfold add_note. cbn [fst notes]. rewrite dom_insert_L. fold (added_ids ops). set_solver.
    + rewrite spend_note_dom. fold (added_ids ops). reflexivity.
Qed.

(** Notes are never removed: after any sequence of [add_note] /
    [spend_note] calls from [BalanceManager::new()] the note store holds
    exactly the ids of the added notes; and [get_notes_for_address(a)]
    lists exactly the stored notes whose address is [a]. *)
Theorem note_store_ids_and_listing (ops : list LedgerOp) :
  dom (notes (run_ledger BalanceManager_new ops)) = added_ids ops /\
  (forall (bm : BalanceManager) (a : Address) (n : Note),
     n ∈ get_notes_for_address bm a <->
     (exists id, notes bm !! id = Some n) /\ note_address n = a).
Proof.
  split.
  - rewrite dom_run. simpl. rewrite dom_empty_L. set_solver.
  - intros bm a n. unfold get_notes_for_address.
    rewrite list_elem_of_filter.
    change (map snd (map_to_list (notes bm))) with (snd <$> map_to_list (notes bm)).
    rewrite list_elem_of_fmap.
    split.
    + intros [Ha ([id n'] & Heq & Hin)]. simpl in Heq; subst n'.
      apply elem_of_map_to_list in Hin. eauto.
    + intros [[id Hid] Ha]. split; [exact Ha |].
      exists (id, n). split; [reflexivity |]. by apply elem_of_map_to_list.
Qed.

(* ------------------------------------------------------------------ *)
(** ** Transaction builder, signing and history *)

Lemma u64_sum_snoc (l : list N) (x : N) : u64_sum (l ++ [x]) = u64_add (u64_sum l) x.
Proof. unfold u64_sum. rewrite fold_left_app. reflexivity. Qed.

(** The builder's running totals: [add_input] adds the input's amount
    to [total_input] (wrapping at [2^64]) and leaves [total_output]
    alone, [add_output] does the same for [total_output], and
    [set_fee] changes neither total. *)
Theorem builder_totals (tb : TransactionBuilder) (i : TransactionInput)
    (o : TransactionOutput) (f : N) :
  total_input (add_input tb i) = u64_add (total_input tb) (in_amount i) /\
  total_output (add_input tb i) = total_output tb /\
  total_output (add_output tb o) = u64_add (total_output tb) (out_amount o) /\
  total_input (add_output tb o) = total_input tb /\
  total_input (set_fee tb f) = total_input tb /\
  total_output (set_fee tb f) = total_output tb.
Proof.
  unfold total_input, total_output, add_input, add_output, set_fee; cbn [inputs outputs].
  rewrite !map_app. cbn [map]. rewrite !u64_sum_snoc. repeat split.
Qed.

Lemma string_length_of_list_ascii (l : list ascii) :
  String.length (string_of_list_ascii l) = List.length l.
Proof. induction l as [|c l IH]; simpl; [reflexivity | rewrite IH; reflexivity]. Qed.

Lemma hex_encode_length (bytes : list Z) :
  String.length (hex_encode bytes) = (2 * List.length bytes)%nat.
Proof.
  unfold hex_encode. rewrite string_length_of_list_ascii.
  induction bytes as [|b bs IH]; simpl; [reflexivity |]. rewrite IH. lia.
Qed.

(** [build_and_sign] fails with [validate]'s error when validation
    fails (before any key lookup), with [KeyNotFound(key_name)] when
    the builder is valid but the key is not registered; and on success
    the signed transaction carries the builder's inputs, outputs and
    fee, the hash [create_transaction_hash] of them, the registered
    key's signature of that hash, and as id the hash's hex encoding
    (two characters per hash byte). *)
Theorem build_and_sign_outcomes (sha256 : list Z -> list Z)
    (ed25519_sign : list Z -> list Z -> list Z) (tb : TransactionBuilder)
    (km : NockchainKeyManager) (key_name : string) :
  (forall e, validate tb = Err e -> build_and_sign sha256 ed25519_sign tb km key_name = Err e) /\
  (validate tb = Ok tt -> keys km !! key_name = None ->
   build_and_sign sha256 ed25519_sign tb km key_name = Err (KeyNotFound key_name)) /\
  (forall st, build_and_sign sha256 ed25519_sign tb km key_name = Ok st ->
   validate tb = Ok tt /\
   exists kp, keys km !! key_name = Some kp /\
     st_inputs st = inputs tb /\ st_outputs st = outputs tb /\ st_fee st = fee tb /\
     st_hash st = create_transaction_hash sha256 (inputs tb) (outputs tb) (fee tb) /\
     st_signature st = ed25519_sign (signing_key kp) (st_hash st) /\
     st_id st = hex_encode (st_hash st) /\
     String.length (st_id st) = (2 * List.length (st_hash st))%nat).
Proof.
  unfold build_and_sign, sign_with_key, get_key, kp_sign.
  split; [| split].
  - intros e ->. reflexivity.
  - intros -> ->. reflexivity.
  - intros st. destruct (validate tb) as [[]|e]; [| discriminate].
    destruct (keys km !! key_name) as [kp|] eqn:Hk; [| discriminate].
    intros H. injection H as <-. split; [reflexivity |].
    exists kp. cbn. repeat split. apply hex_encode_length.
Qed.

Lemma str_bytes_snoc (s : string) (c : ascii) :
  str_bytes (s +:+ String c EmptyString) = str_bytes s ++ [Z.of_nat (nat_of_ascii c)].
Proof.
  unfold str_bytes. induction s as [|c' s IH]; simpl; [reflexivity |].
  f_equal. exact IH.
Qed.

Lemma fold_hash_output_app (outs : list TransactionOutput) (st : list Z) :
  fold_left hash_output outs st =
  st ++ concat (map (fun o => hash_output [] o) outs).
Proof.
  revert st. induction outs as [|o outs IH]; intros st; simpl.
  - rewrite app_nil_r. reflexivity.
  - rewrite IH. unfold hash_output, hasher_update. simpl.
    rewrite <- !app_assoc. reflexivity.
Qed.

(** The transaction hash has no field separators: moving the last
    character of an output's [recipient_address] to the front of its
    [script_pubkey] gives the same [create_transaction_hash], so
    [build_and_sign] on the two builders yields the same id, hash and
    signature. *)
Theorem transaction_hash_recipient_script_boundary (sha256 : list Z -> list Z)
    (ed25519_sign : list Z -> list Z -> list Z)
    (ins : list TransactionInput) (pre post : list TransactionOutput)
    (amount : N) (r : string) (c : ascii) (script : list Z) (fee0 : N)
    (km : NockchainKeyManager) (key_name : string) :
  let outs1 := pre ++ mk_TransactionOutput amount (r +:+ String c EmptyString) script :: post in
  let outs2 := pre ++ mk_TransactionOutput amount r (Z.of_nat (nat_of_ascii c) :: script) :: post in
  create_transaction_hash sha256 ins outs1 fee0 = create_transaction_hash sha256 ins outs2 fee0 /\
  build_and_sign sha256 ed25519_sign (mk_TransactionBuilder ins outs1 fee0) km key_name =
  wr_map (fun st => mk_SignedTransaction (st_id st) ins outs1 fee0 (st_signature st) (st_hash st))
    (build_and_sign sha256 ed25519_sign (mk_TransactionBuilder ins outs2 fee0) km key_name).
Proof.
  intros outs1 outs2.
  assert (Hh : create_transaction_hash sha256 ins outs1 fee0 =
               create_transaction_hash sha256 ins outs2 fee0).
  { unfold create_transaction_hash, outs1, outs2.
    assert (Ho : hash_output [] (mk_TransactionOutput amount (r +:+ String c EmptyString) script) =
                 hash_output [] (mk_TransactionOutput amount r (Z.of_nat (nat_of_ascii c) :: script))).
    { unfold hash_output, hasher_update. cbn [recipient_address script_pubkey out_amount].
      rewrite str_bytes_snoc, <- !app_assoc. reflexivity. }
    rewrite !fold_hash_output_app, !map_app. cbn [map]. rewrite Ho. reflexivity. }
  split; [exact Hh |].
  assert (Hv : validate (mk_TransactionBuilder ins outs1 fee0) =
               validate (mk_TransactionBuilder ins outs2 fee0)).
  { unfold validate, total_output, outs1, outs2. cbn [inputs outputs fee].
    rewrite !map_app. cbn [map out_amount].
    destruct pre; reflexivity. }
  unfold build_and_sign. rewrite Hv. cbn [inputs outputs fee].
  destruct (validate (mk_TransactionBuilder ins outs2 fee0)) as [[]|e]; [| reflexivity].
  rewrite Hh.
  destruct (sign_with_key ed25519_sign km key_name
              (create_transaction_hash sha256 ins outs2 fee0)); reflexivity.
Qed.

(** [NockchainTransaction::create_transaction_hash] does not read the
    inputs' amounts: inputs that differ only in [amount] hash the same. *)
Theorem ntx_hash_ignores_input_amounts (sha256 : list Z -> list Z)
    (amount : TransactionInput -> N) (ins : list TransactionInput)
    (outs : list TransactionOutput) :
  ntx_create_transaction_hash sha256
    (map (fun i => mk_TransactionInput (previous_output i) (in_signature i)
                     (in_public_key i) (amount i)) ins) outs =
  ntx_create_transaction_hash sha256 ins outs.
Proof.
  unfold ntx_create_transaction_hash. f_equal. f_equal.
  generalize (@nil Z) as st. intros st.
  revert st. induction ins as [|i ins IH]; intros st; simpl; [reflexivity |].
  apply IH.
Qed.

Lemma position_snoc {A} (p : A -> bool) (l : list A) (x : A) :
  Forall (fun y => p y = false) l -> p x = true -> position p (l ++ [x]) = Some (length l).
Proof.
  intros Hl Hx. induction Hl as [|y l Hy Hl IH]; simpl.
  - rewrite Hx. reflexivity.
  - rewrite Hy, IH. reflexivity.
Qed.

(** Recording then confirming: when no pending record has the signed
    transaction's id, [add_pending_transaction] followed by
    [confirm_transaction] of that id succeeds, gives back the pending
    list as it was, and appends to the confirmed list the recorded
    transaction (amount the wrapping sum of the outputs, the fee, the
    first output's parsed recipient, [created_at] the recording time)
    with status [Confirmed] and [confirmed_at] the confirmation time. *)
Theorem add_pending_then_confirm (tm : TransactionManager) (st : SignedTransaction)
    (outgoing : bool) (t0 : Z) (bh : N) (t1 : Z) :
  Forall (fun tx => tx_id tx <> st_id st) (pending_transactions tm) ->
  confirm_transaction (add_pending_transaction tm st outgoing t0) (st_id st) bh t1 =
  (mk_TransactionManager (pending_transactions tm)
     (confirmed_transactions tm ++
      [mk_Tx (st_id st) (Confirmed bh) (u64_sum (map out_amount (st_outputs st)))
         (st_fee st) None (first_recipient_address (st_outputs st)) t0 (Some t1) outgoing]),
   Ok tt).
Proof.
  intros Hnone. unfold confirm_transaction, add_pending_transaction. cbn [pending_transactions confirmed_transactions].
  rewrite position_snoc.
  - rewrite <- (app_nil_r (pending_transactions tm ++ _)), <- app_assoc. cbn [app].
    rewrite vec_remove_middle, app_nil_r. reflexivity.
  - eapply Forall_impl; [exact Hnone |]. intros y Hy. apply String.eqb_neq. exact Hy.
  - apply String.eqb_refl.
Qed.

Definition sample_signed : SignedTransaction :=
  mk_SignedTransaction "ab" [] [mk_TransactionOutput 5 "x" []] 1 [] [].

Definition sample_tx_record (id : string) (t : Z) : Tx :=
  mk_Tx id Pending 0 0 None None t None true.

Lemma add_pending_then_confirm_witness :
  Forall (fun tx => tx_id tx <> st_id sample_signed)
    (pending_transactions (mk_TransactionManager [sample_tx_record "cd" 3] [])) /\
  confirm_transaction (add_pending_transaction (mk_TransactionManager [sample_tx_record "cd" 3] [])
                         sample_signed true 7) (st_id sample_signed) 9 11 =
  (mk_TransactionManager
     (pending_transactions (mk_TransactionManager [sample_tx_record "cd" 3] []))
     (confirmed_transactions (mk_TransactionManager [sample_tx_record "cd" 3] []) ++
      [mk_Tx (st_id sample_signed) (Confirmed 9) (u64_sum (map out_amount (st_outputs sample_signed)))
         (st_fee sample_signed) None (first_recipient_address (st_outputs sample_signed))
         7 (Some 11) true]),
   Ok tt).
Proof.
  assert (H : Forall (fun tx => tx_id tx <> st_id sample_signed)
    (pending_transactions (mk_TransactionManager [sample_tx_record "cd" 3] [])))
    by (repeat constructor; simpl; discriminate).
  split; [exact H |].
  exact (add_pending_then_confirm _ sample_signed true 7 9 11 H).
Defined.

Definition newer_or_same (a b : Tx) : Prop := created_at b <= created_at a.

Lemma insert_by_created_perm (x : Tx) (l : list Tx) :
  Permutation (insert_by_created x l) (x :: l).
Proof.
  induction l as [|y l IH]; simpl; [reflexivity |].
  destruct (created_at x <? created_at y).
  - rewrite IH. apply perm_swap.
  - reflexivity.
Qed.

Lemma sort_by_created_desc_perm (l : list Tx) : Permutation (sort_by_created_desc l) l.
Proof.
  induction l as [|x l IH]; simpl; [reflexivity |].
  rewrite insert_by_created_perm, IH. reflexivity.
Qed.

Lemma insert_by_created_hd (x y : Tx) (l : list Tx) :
  HdRel newer_or_same y l -> newer_or_same y x -> HdRel newer_or_same y (insert_by_created x l).
Proof.
  intros Hl Hx. destruct l as [|z l]; simpl; [constructor; exact Hx |].
  destruct (created_at x <? created_at z); constructor; [inversion Hl; assumption | exact Hx].
Qed.

Lemma insert_by_created_sorted (x : Tx) (l : list Tx) :
  Sorted newer_or_same l -> Sorted newer_or_same (insert_by_created x l).
Proof.
  induction l as [|y l IH]; intros Hs; simpl; [repeat constructor |].
  destruct (Z.ltb_spec (created_at x) (created_at y)) as [Hlt | Hge].
  - apply Sorted_inv in Hs as [Hs Hhd]. constructor; [apply IH, Hs |].
    apply insert_by_created_hd; [exact Hhd | unfold newer_or_same; lia].
  - constructor; [exact Hs | constructor; unfold newer_or_same; lia].
Qed.

(** [get_all_transactions] returns exactly the pending and confirmed
    records (a permutation of [pending ++ confirmed]), newest first:
    [created_at] never increases along the list. *)
Theorem get_all_transactions_sorted (tm : TransactionManager) :
  Permutation (get_all_transactions tm)
    (pending_transactions tm ++ confirmed_transactions tm) /\
  Sorted (fun a b => created_at b <= created_at a) (get_all_transactions tm).
Proof.
  unfold get_all_transactions. split; [apply sort_by_created_desc_perm |].
  change (Sorted newer_or_same
            (sort_by_created_desc (pending_transactions tm ++ confirmed_transactions tm))).
  induction (pending_transactions tm ++ confirmed_transactions tm) as [|x l IH]; simpl;
    [constructor | apply insert_by_created_sorted, IH].
Qed.

(* ------------------------------------------------------------------ *)
(** ** Key import, export and removal *)

(** [import_key] registers the key pair of a 32-byte secret under
    [name] (replacing any key there), returns its address, and leaves
    other names and the encrypted storage alone; a secret of any other
    length fails with [Crypto("Invalid secret key length")] and leaves
    the manager unchanged. [import_nock_key] on 32 bytes followed by
    anything behaves as [import_key] on the 32 bytes: trailing data is
    ignored. *)
Theorem import_key_outcomes (ed25519_public : list Z -> list Z)
    (km : NockchainKeyManager) (name : string) (secret : list Z) :
  (List.length secret <> 32%nat ->
   import_key ed25519_public km name secret = (km, Err (Crypto "Invalid secret key length"))) /\
  (List.length secret = 32%nat ->
   snd (import_key ed25519_public km name secret) = Ok (from_public_key (ed25519_public secret)) /\
   get_key (fst (import_key ed25519_public km name secret)) name =
     Ok (keypair_of_secret ed25519_public secret) /\
   (forall name', name' <> name ->
      get_key (fst (import_key ed25519_public km name secret)) name' = get_key km name') /\
   encrypted_storage (fst (import_key ed25519_public km name secret)) = encrypted_storage km /\
   (forall rest, import_nock_key ed25519_public km name (secret ++ rest) =
                 import_key ed25519_public km name secret)).
Proof.
  unfold import_key, from_secret_bytes. split.
  - intros Hlen. apply Nat.eqb_neq in Hlen. rewrite Hlen. reflexivity.
  - intros Hlen. rewrite Hlen. cbn [negb Nat.eqb fst snd]. repeat split.
    + unfold get_key, insert_key. cbn [keys]. rewrite lookup_insert_eq. reflexivity.
    + intros name' Hne. unfold get_key, insert_key. cbn [keys].
      rewrite lookup_insert_ne by congruence. reflexivity.
    + intros rest. unfold import_nock_key, from_nock_noun, from_secret_bytes.
      rewrite length_app, Hlen, take_app_length' by (symmetry; exact Hlen).
      rewrite (proj2 (Nat.leb_le 32 (32 + List.length rest))) by lia.
      rewrite Hlen. reflexivity.
Qed.

(** Removing a key: [remove_key] succeeds exactly when the name is
    registered; afterwards the name is gone from both the key map and
    the encrypted storage, [get_key], [sign_with_key] and a second
    [remove_key] fail with [KeyNotFound(name)], and other names are
    unaffected. *)
Theorem remove_key_outcomes (ed25519_sign : list Z -> list Z -> list Z)
    (km : NockchainKeyManager) (name : string) (message : list Z) :
  (snd (remove_key km name) = Ok tt <-> is_Some (keys km !! name)) /\
  (is_Some (keys km !! name) -> encrypted_storage (fst (remove_key km name)) !! name = None) /\
  (keys km !! name = None -> fst (remove_key km name) = km) /\
  get_key (fst (remove_key km name)) name = Err (KeyNotFound name) /\
  sign_with_key ed25519_sign (fst (remove_key km name)) name message = Err (KeyNotFound name) /\
  snd (remove_key (fst (remove_key km name)) name) = Err (KeyNotFound name) /\
  (forall name', name' <> name -> get_key (fst (remove_key km name)) name' = get_key km name').
Proof.
  unfold remove_key, sign_with_key, get_key.
  destruct (keys km !! name) as [kp|] eqn:Hk; cbn [fst snd keys encrypted_storage].
  - rewrite !lookup_delete_eq.
    split; [split; [intros _; eauto | reflexivity] |].
    split; [reflexivity |]. split; [discriminate |].
    split; [reflexivity |]. split; [reflexivity |]. split; [reflexivity |].
    intros name' Hne. rewrite lookup_delete_ne by congruence. reflexivity.
  - rewrite Hk. repeat split; try reflexivity; try discriminate.
    + intros [x Hx]. discriminate.
    + intros [x Hx]. discriminate.
Qed.

Lemma chunks_fuel_lookup {A} (fuel n : nat) (l : list A) (i : nat) :
  (0 < n)%nat -> (List.length l <= fuel)%nat ->
  chunks_fuel fuel n l !! i =
    if (n * i <? List.length l)%nat then Some (take n (drop (n * i) l)) else None.
Proof.
  intros Hn. revert l i. induction fuel as [|f IH]; intros l i Hl.
  - destruct l; [| simpl in Hl; lia].
    simpl. destruct (Nat.ltb_spec (n * i) 0); [lia | reflexivity].
  - destruct l as [|x l'] eqn:El.
    + simpl. destruct (Nat.ltb_spec (n * i) 0); [lia | reflexivity].
    + rewrite <- El. cbn [chunks_fuel]. rewrite El. rewrite <- El.
      destruct i as [|i].
      * simpl. rewrite Nat.mul_0_r, drop_0.
        destruct (Nat.ltb_spec 0 (List.length l)); [reflexivity | subst; simpl in *; lia].
      * cbn [lookup list_lookup]. change (chunks_fuel f n (drop n l) !! i =
          (if (n * S i <? List.length l)%nat then Some (take n (drop (n * S i) l)) else None)).
        rewrite IH.
        -- rewrite length_drop, drop_drop.
           replace (n + n * i)%nat with (n * S i)%nat by lia.
           destruct (Nat.ltb_spec (n * i) (List.length l - n));
             destruct (Nat.ltb_spec (n * S i) (List.length l)); try reflexivity; lia.
        -- rewrite length_drop. subst l. simpl in *. lia.
Qed.

Lemma chunks_32_lookup (data : list Z) (i : nat) :
  chunks 32 data !! i =
    if (32 * i <? List.length data)%nat then Some (take 32 (drop (32 * i) data)) else None.
Proof. unfold chunks. apply chunks_fuel_lookup; lia. Qed.

Lemma imported_key_name_inj (i j : nat) : imported_key_name i = imported_key_name j -> i = j.
Proof.
  unfold imported_key_name. intros H.
  apply (String.app_inj "imported_key_") in H. apply pretty_nat_inj in H. exact H.
Qed.

Section ImportChunks.

Variable ed25519_public : list Z -> list Z.

Lemma import_nock_key_32 (km : NockchainKeyManager) (name : string) (c : list Z) :
  List.length c = 32%nat ->
  import_nock_key ed25519_public km name c =
    (insert_key km name (keypair_of_secret ed25519_public c),
     Ok (kp_address (keypair_of_secret ed25519_public c))).
Proof.
  intros Hc. unfold import_nock_key, from_nock_noun, from_secret_bytes.
  rewrite Hc. cbn [Nat.leb]. rewrite take_ge by lia. rewrite Hc. reflexivity.
Qed.

Lemma import_chunks_ok (cs : list (list Z)) (km : NockchainKeyManager) (j : nat) :
  snd (import_chunks ed25519_public km cs j) = Ok tt.
Proof.
  revert km j. induction cs as [|c cs IH]; intros km j; simpl; [reflexivity |].
  destruct (Nat.eqb_spec (List.length c) 32) as [Hc|Hc]; [| apply IH].
  rewrite import_nock_key_32 by exact Hc. apply IH.
Qed.

Lemma import_chunks_storage (cs : list (list Z)) (km : NockchainKeyManager) (j : nat) :
  encrypted_storage (fst (import_chunks ed25519_public km cs j)) = encrypted_storage km.
Proof.
  revert km j. induction cs as [|c cs IH]; intros km j; simpl; [reflexivity |].
  destruct (Nat.eqb_spec (List.length c) 32) as [Hc|Hc]; [| apply IH].
  rewrite import_nock_key_32 by exact Hc. rewrite IH. reflexivity.
Qed.

Lemma import_chunks_other (cs : list (list Z)) (km : NockchainKeyManager) (j : nat) (n : string) :
  (forall k, n <> imported_key_name (j + k)) ->
  keys (fst (import_chunks ed25519_public km cs j)) !! n = keys km !! n.
Proof.
  revert km j. induction cs as [|c cs IH]; intros km j Hn; simpl; [reflexivity |].
  assert (Hn' : forall k, n <> imported_key_name (S j + k)).
  { intros k. replace (S j + k)%nat with (j + S k)%nat by lia. apply Hn. }
  destruct (Nat.eqb_spec (List.length c) 32) as [Hc|Hc]; [| apply IH, Hn'].
  rewrite import_nock_key_32 by exact Hc. rewrite IH by exact Hn'.
  unfold insert_key. cbn [keys]. apply lookup_insert_ne.
  specialize (Hn 0%nat). rewrite Nat.add_0_r in Hn. congruence.
Qed.

Lemma import_chunks_named (cs : list (list Z)) (km : NockchainKeyManager) (j k : nat) :
  keys (fst (import_chunks ed25519_public km cs j)) !! imported_key_name (j + k) =
    match cs !! k with
    | Some c => if (List.length c =? 32)%nat then Some (keypair_of_secret ed25519_public c)
                else keys km !! imported_key_name (j + k)
    | None => keys km !! imported_key_name (j + k)
    end.
Proof.
  revert km j k. induction cs as [|c cs IH]; intros km j k; simpl; [reflexivity |].
  destruct k as [|k].
  - rewrite Nat.add_0_r. cbn [lookup list_lookup].
    destruct (Nat.eqb_spec (List.length c) 32) as [Hc|Hc].
    + rewrite import_nock_key_32 by exact Hc. rewrite import_chunks_other.
      * unfold insert_key. cbn [keys]. apply lookup_insert_eq.
      * intros k' Heq. apply imported_key_name_inj in Heq. lia.
    + rewrite import_chunks_other; [reflexivity |].
      intros k' Heq. apply imported_key_name_inj in Heq. lia.
  - cbn [lookup list_lookup].
    replace (j + S k)%nat with (S j + k)%nat by lia.
    destruct (Nat.eqb_spec (List.length c) 32) as [Hc|Hc].
    + rewrite import_nock_key_32 by exact Hc. rewrite IH.
      destruct (cs !! k) as [c'|]; [destruct (List.length c' =? 32)%nat |]; try reflexivity;
        unfold insert_key; cbn [keys]; apply lookup_insert_ne;
        intros Heq; apply imported_key_name_inj in Heq; lia.
    + apply IH.
Qed.

End ImportChunks.

Lemma import_nockchain_keys_named (ed25519_public : list Z -> list Z)
    (km : NockchainKeyManager) (data : list Z) (i : nat) :
  get_key (fst (import_nockchain_keys ed25519_public km data)) (imported_key_name i) =
     if (32 * S i <=? List.length data)%nat
     then Ok (keypair_of_secret ed25519_public (take 32 (drop (32 * i) data)))
     else get_key km (imported_key_name i).
Proof.
  unfold import_nockchain_keys, get_key.
  rewrite (import_chunks_named _ _ _ 0 i), chunks_32_lookup. cbn [Nat.add].
  destruct (Nat.ltb_spec (32 * i) (List.length data)).
  - rewrite length_take, length_drop.
    destruct (Nat.leb_spec (32 * S i) (List.length data)).
    + rewrite (proj2 (Nat.eqb_eq _ 32)) by lia. reflexivity.
    + rewrite (proj2 (Nat.eqb_neq _ 32)) by lia. reflexivity.
  - rewrite (proj2 (Nat.leb_gt _ _)) by lia. reflexivity.
Qed.

(** [import_nockchain_keys] always succeeds: the [i]-th 32-byte slice of
    the data is registered, as the key pair whose secret it is, under
    ["imported_key_{i}"] (replacing any key there); a trailing slice
    shorter than 32 bytes is silently skipped; every other name and the
    encrypted storage are left unchanged. *)
Theorem import_nockchain_keys_outcomes (ed25519_public : list Z -> list Z)
    (km : NockchainKeyManager) (data : list Z) :
  snd (import_nockchain_keys ed25519_public km data) = Ok tt /\
  (forall i, get_key (fst (import_nockchain_keys ed25519_public km data)) (imported_key_name i) =
     if (32 * S i <=? List.length data)%nat
     then Ok (keypair_of_secret ed25519_public (take 32 (drop (32 * i) data)))
     else get_key km (imported_key_name i)) /\
  (forall name, (forall i, name <> imported_key_name i) ->
     get_key (fst (import_nockchain_keys ed25519_public km data)) name = get_key km name) /\
  encrypted_storage (fst (import_nockchain_keys ed25519_public km data)) = encrypted_storage km.
Proof.
  split; [apply import_chunks_ok |]. split; [| split].
  - intros i. apply import_nockchain_keys_named.
  - unfold import_nockchain_keys. intros name Hn. unfold get_key. rewrite import_chunks_other; [reflexivity |].
    intros k. apply Hn.
  - apply import_chunks_storage.
Qed.

Lemma export_loop_concat (entries : list (string * NockchainKeyPair)) (acc : list Z) :
  export_loop entries acc = Ok (acc ++ concat (map (fun e => verifying_key e.2) entries)).
Proof.
  revert acc. induction entries as [|[nm kp] rest IH]; intros acc; simpl.
  - rewrite app_nil_r. reflexivity.
  - rewrite IH, app_assoc. reflexivity.
Qed.

(** [export_nockchain_keys] always succeeds, and exports the public
    (verifying) keys of the registered key pairs, concatenated in the
    map's iteration order: no secret key byte is exported. *)
Theorem export_nockchain_keys_public (km : NockchainKeyManager) :
  export_nockchain_keys km =
    Ok (concat (map (fun e => verifying_key e.2) (map_to_list (keys km)))).
Proof. unfold export_nockchain_keys. rewrite export_loop_concat. reflexivity. Qed.

Lemma concat_uniform_chunk (L : list (list Z)) (i : nat) (x : list Z) :
  Forall (fun y => List.length y = 32%nat) L -> L !! i = Some x ->
  take 32 (drop (32 * i) (concat L)) = x /\ (32 * S i <= List.length (concat L))%nat.
Proof.
  revert i. induction L as [|y L IH]; intros i HL Hi; [discriminate |].
  inversion HL as [|? ? Hy HL']; subst.
  destruct i as [|i]; cbn [lookup list_lookup] in Hi.
  - injection Hi as <-. simpl. rewrite drop_0, take_app_length' by lia.
    rewrite length_app. split; [reflexivity | lia].
  - destruct (IH i HL' Hi) as [Ht Hl]. cbn [concat].
    replace (32 * S i)%nat with (List.length y + 32 * i)%nat by lia.
    rewrite <- drop_drop, drop_app_length. split; [exact Ht |].
    rewrite length_app. lia.
Qed.

(** Exporting then importing does not give the keys back: when every
    registered key pair has a 32-byte verifying key, importing the
    export registers under ["imported_key_{i}"] the key pair whose
    SECRET is the verifying key of the [i]-th exported key pair. *)
Theorem export_then_import_uses_public_keys (ed25519_public : list Z -> list Z)
    (km km' : NockchainKeyManager) :
  map_Forall (fun _ kp => List.length (verifying_key kp) = 32%nat) (keys km) ->
  exists data, export_nockchain_keys km = Ok data /\
    forall i name kp, map_to_list (keys km) !! i = Some (name, kp) ->
      get_key (fst (import_nockchain_keys ed25519_public km' data)) (imported_key_name i) =
      Ok (keypair_of_secret ed25519_public (verifying_key kp)).
Proof.
  intros Hall. eexists. split; [apply export_nockchain_keys_public |].
  intros i name kp Hi.
  set (L := map (fun e : string * NockchainKeyPair => verifying_key e.2) (map_to_list (keys km))).
  assert (HL : Forall (fun y => List.length y = 32%nat) L).
  { unfold L. apply Forall_map, Forall_forall. intros [nm k] Hin.
    apply elem_of_map_to_list in Hin. exact (Hall nm k Hin). }
  assert (Hx : L !! i = Some (verifying_key kp)) by (unfold L; rewrite list_lookup_fmap, Hi; reflexivity).
  destruct (concat_uniform_chunk L i _ HL Hx) as [Ht Hl].
  rewrite import_nockchain_keys_named. rewrite (proj2 (Nat.leb_le _ _) Hl), Ht. reflexivity.
Qed.

Definition sample_key_manager : NockchainKeyManager :=
  insert_key NockchainKeyManager_new "a" (sample_keypair 1).

Lemma export_then_import_uses_public_keys_witness :
  map_Forall (fun _ kp => List.length (verifying_key kp) = 32%nat) (keys sample_key_manager) /\
  exists data, export_nockchain_keys sample_key_manager = Ok data /\
    forall i name kp, map_to_list (keys sample_key_manager) !! i = Some (name, kp) ->
      get_key (fst (import_nockchain_keys (fun s => s) NockchainKeyManager_new data))
        (imported_key_name i) =
      Ok (keypair_of_secret (fun s => s) (verifying_key kp)).
Proof.
  assert (H : map_Forall (fun _ kp => List.length (verifying_key kp) = 32%nat)
                (keys sample_key_manager)).
  { unfold sample_key_manager, insert_key. cbn [keys NockchainKeyManager_new].
    rewrite insert_empty. apply map_Forall_singleton. reflexivity. }
  split; [exact H |].
  exact (export_then_import_uses_public_keys (fun s => s) sample_key_manager
           NockchainKeyManager_new H).
Defined.

(* ------------------------------------------------------------------ *)
(** ** Difficulty, block validation and mining *)

Lemma cmp_from_shift (f i : nat) (x y : Z) (a t : list Z) :
  cmp_from f (S i) (x :: a) (y :: t) = cmp_from f i a t.
Proof.
  revert i. induction f as [|f IH]; intros i; simpl; [reflexivity |].
  rewrite IH. reflexivity.
Qed.

Lemma from_digits_cons256 (x : Z) (a : list Z) :
  from_digits 256 (x :: a) = x * 256 ^ Z.of_nat (List.length a) + from_digits 256 a.
Proof.
  change (from_digits 256 (x :: a)) with
    (fold_left (fun acc d => acc * 256 + d) a (0 * 256 + x)).
  rewrite fold_digits_acc. lia.
Qed.

(** The byte-by-byte comparison of [meets_difficulty] is the numeric
    comparison of the two big-endian values. *)
Lemma cmp_from_value (a t : list Z) :
  List.length a = List.length t -> Forall is_byte a -> Forall is_byte t ->
  cmp_from (List.length a) 0 a t = (from_digits 256 a <=? from_digits 256 t).
Proof.
  revert t. induction a as [|x a IH]; intros t Hlen Ha Ht.
  - destruct t; [reflexivity | discriminate].
  - destruct t as [|y t]; [discriminate |].
    injection Hlen as Hlen.
    apply Forall_cons in Ha as [Hx Ha]. apply Forall_cons in Ht as [Hy Ht].
    unfold is_byte in Hx, Hy.
    change (List.length (x :: a)) with (S (List.length a)).
    change (cmp_from (S (List.length a)) 0 (x :: a) (y :: t)) with
      (if nth 0 (x :: a) 0 <? nth 0 (y :: t) 0 then true
       else if nth 0 (y :: t) 0 <? nth 0 (x :: a) 0 then false
       else cmp_from (List.length a) 1 (x :: a) (y :: t)).
    rewrite cmp_from_shift. cbn [nth].
    rewrite !from_digits_cons256, <- Hlen.
    pose proof (from_digits_bound 256 ltac:(lia) a Ha) as Ba.
    pose proof (from_digits_bound 256 ltac:(lia) t Ht) as Bt.
    rewrite <- Hlen in Bt.
    set (B := 256 ^ Z.of_nat (List.length a)) in *.
    assert (HB : 0 < B) by lia.
    destruct (Z.ltb_spec x y).
    + symmetry. apply Z.leb_le. nia.
    + destruct (Z.ltb_spec y x).
      * symmetry. apply Z.leb_gt. nia.
      * assert (x = y) as -> by lia. rewrite IH by assumption.
        destruct (Z.leb_spec (from_digits 256 a) (from_digits 256 t));
          symmetry; [apply Z.leb_le | apply Z.leb_gt]; lia.
Qed.

Lemma from_digits_app256 (l1 l2 : list Z) :
  from_digits 256 (l1 ++ l2) =
  from_digits 256 l1 * 256 ^ Z.of_nat (List.length l2) + from_digits 256 l2.
Proof.
  unfold from_digits at 1. rewrite fold_left_app.
  rewrite fold_digits_acc. reflexivity.
Qed.

Lemma from_digits_zeros (k : nat) : from_digits 256 (repeat 0 k) = 0.
Proof.
  induction k as [|k IH]; [reflexivity |].
  change (repeat 0 (S k)) with ([0] ++ repeat 0 k).
  rewrite from_digits_app256, IH. reflexivity.
Qed.

Lemma zeros_bytes (k : nat) : Forall is_byte (repeat 0 k).
Proof. induction k as [|k IH]; constructor; [unfold is_byte; lia | exact IH]. Qed.

(** The target as a 32-byte big-endian number has the value
    [target_value bits]. *)
Lemma difficulty_to_target_value (bits : Z) :
  List.length (difficulty_to_target bits) = 32%nat /\
  Forall is_byte (difficulty_to_target bits) /\
  from_digits 256 (difficulty_to_target bits) = target_value bits.
Proof.
  assert (He : 0 <= Z.land (Z.shiftr bits 24) 255 < 256) by apply exponent_range.
  assert (Hm : 0 <= Z.land bits 16777215 < 2 ^ 24) by apply mantissa_range.
  unfold difficulty_to_target, target_value.
  set (e := Z.land (Z.shiftr bits 24) 255) in *.
  set (m := Z.land bits 16777215) in *.
  destruct (Z.leb_spec e 3) as [Hle | Hgt].
  - set (v := Z.shiftr m (8 * (3 - e))).
    assert (Hv : 0 <= v < 2 ^ 24).
    { unfold v. rewrite Z.shiftr_div_pow2 by lia.
      assert (0 < 2 ^ (8 * (3 - e))) by (apply Z.pow_pos_nonneg; lia).
      split; [apply Z.div_pos; lia |].
      apply Z.le_lt_trans with m; [| lia].
      apply Z.div_le_upper_bound; nia. }
    destruct (three_bytes_value v Hv) as [Hb Hval].
    assert (Hl : <[31%nat := Z.land v 255]>
              (<[30%nat := Z.land (Z.shiftr v 8) 255]>
                 (<[29%nat := Z.land (Z.shiftr v 16) 255]> (repeat 0 32))) =
            repeat 0 29 ++ [Z.land (Z.shiftr v 16) 255; Z.land (Z.shiftr v 8) 255; Z.land v 255])
      by (cbn -[Z.land Z.shiftr]; reflexivity).
    rewrite Hl. split; [reflexivity |]. split.
    + apply Forall_app. split; [apply zeros_bytes | exact Hb].
    + rewrite from_digits_app256, from_digits_zeros, Hval. lia.
  - destruct (Z.ltb_spec e 32) as [Hlt | Hge].
    + clearbody e m.
      assert (Hsplit : repeat 0 32 =
        repeat 0 (Z.to_nat (32 - e)) ++ [0; 0; 0] ++ repeat 0 (Z.to_nat (e - 3))).
      { change [0; 0; 0] with (repeat 0 3).
        rewrite <- (repeat_app 0 3 (Z.to_nat (e - 3))), <- repeat_app.
        f_equal. lia. }
      rewrite Hsplit, insert_repeat_app0, !insert_repeat_app.
      destruct (three_bytes_value m Hm) as [Hb Hval].
      assert (Hl : <[2%nat := Z.land m 255]> (<[1%nat := Z.land (Z.shiftr m 8) 255]>
                     (<[0%nat := Z.land (Z.shiftr m 16) 255]> ([0; 0; 0] ++ repeat 0 (Z.to_nat (e - 3))))) =
                   [Z.land (Z.shiftr m 16) 255; Z.land (Z.shiftr m 8) 255; Z.land m 255] ++
                     repeat 0 (Z.to_nat (e - 3)))
        by (cbn -[Z.land Z.shiftr]; reflexivity).
      rewrite Hl. split; [| split].
      * rewrite !length_app, !repeat_length. simpl. lia.
      * apply Forall_app. split; [apply zeros_bytes |].
        apply Forall_app. split; [exact Hb | apply zeros_bytes].
      * rewrite !from_digits_app256, !from_digits_zeros, Hval, repeat_length.
        rewrite Z2Nat.id by lia. lia.
    + split; [reflexivity |]. split; [apply zeros_bytes |]. apply from_digits_zeros.
Qed.

(** [meets_difficulty] compares numbers: for a header whose hash is 32
    bytes, it holds exactly when the hash, read as a big-endian number,
    is at most the target value of [bits] ([m >> 8*(3-e)] for [e <= 3],
    [m * 256^(e-3)] for [3 < e < 32], 0 beyond); a hash equal to the
    target meets it. *)
Theorem meets_difficulty_numeric (sha256 : list Z -> list Z) (h : BlockHeader) :
  List.length (header_hash sha256 h) = 32%nat -> Forall is_byte (header_hash sha256 h) ->
  meets_difficulty sha256 h = (from_digits 256 (header_hash sha256 h) <=? target_value (bits h)).
Proof.
  intros Hlen Hb.
  destruct (difficulty_to_target_value (bits h)) as (Tl & Tb & Tv).
  unfold meets_difficulty. rewrite <- Tv, <- Hlen.
  apply cmp_from_value; [congruence | exact Hb | exact Tb].
Qed.

Lemma meets_difficulty_numeric_witness :
  (List.length (header_hash zero_sha256 (sample_header 0x1d00ffff)) = 32%nat /\
   Forall is_byte (header_hash zero_sha256 (sample_header 0x1d00ffff))) /\
  meets_difficulty zero_sha256 (sample_header 0x1d00ffff) =
    (from_digits 256 (header_hash zero_sha256 (sample_header 0x1d00ffff)) <=?
       target_value (bits (sample_header 0x1d00ffff))).
Proof.
  assert (H1 : List.length (header_hash zero_sha256 (sample_header 0x1d00ffff)) = 32%nat)
    by reflexivity.
  assert (H2 : Forall is_byte (header_hash zero_sha256 (sample_header 0x1d00ffff)))
    by apply zeros_bytes.
  split; [exact (conj H1 H2) |].
  exact (meets_difficulty_numeric zero_sha256 (sample_header 0x1d00ffff) H1 H2).
Defined.

Lemma check_transactions_spec (txs : list NockchainTransaction) :
  (check_transactions txs = Ok tt <->
   Forall (fun tx => ntx_inputs tx <> [] /\ ntx_outputs tx <> []) txs) /\
  (check_transactions txs = Ok tt \/
   check_transactions txs = Err (BlockValidation "Transaction has no inputs") \/
   check_transactions txs = Err (BlockValidation "Transaction has no outputs")).
Proof.
  induction txs as [|tx txs [IH1 IH2]]; simpl.
  - split; [split; constructor | left; reflexivity].
  - destruct (decide (ntx_inputs tx = [])) as [Hi | Hi].
    + rewrite bool_decide_eq_true_2 by exact Hi. split; [| right; left; reflexivity].
      split; [discriminate |]. intros H. inversion H as [|? ? [? _]]; contradiction.
    + rewrite bool_decide_eq_false_2 by exact Hi.
      destruct (decide (ntx_outputs tx = [])) as [Ho | Ho].
      * rewrite bool_decide_eq_true_2 by exact Ho. split; [| right; right; reflexivity].
        split; [discriminate |]. intros H. inversion H as [|? ? [_ ?]]; contradiction.
      * rewrite bool_decide_eq_false_2 by exact Ho. split; [| exact IH2].
        rewrite IH1. split; [intros; constructor; auto | intros H; inversion H; assumption].
Qed.

(** A freshly built block never fails the Merkle check: [Block::validate]
    on [Block::new(...)] succeeds exactly when the header meets the
    difficulty and every transaction has inputs and outputs, and never
    reports ["Invalid merkle root"]. *)
Theorem block_new_validate (sha256 : list Z -> list Z) (prev : list Z)
    (txs : list NockchainTransaction) (height bits now : Z) :
  (Block_validate sha256 (Block_new sha256 prev txs height bits now) = Ok tt <->
   meets_difficulty sha256 (header (Block_new sha256 prev txs height bits now)) = true /\
   Forall (fun tx => ntx_inputs tx <> [] /\ ntx_outputs tx <> []) txs) /\
  Block_validate sha256 (Block_new sha256 prev txs height bits now) <>
    Err (BlockValidation "Invalid merkle root").
Proof.
  unfold Block_validate. cbn [header transactions merkle_root Block_new].
  rewrite bool_decide_eq_true_2 by reflexivity. cbn [negb].
  destruct (check_transactions_spec txs) as [Hc1 Hc2].
  match goal with |- context [meets_difficulty sha256 ?hd] => destruct (meets_difficulty sha256 hd) end;
    cbn [negb].
  - rewrite Hc1. split; [tauto |].
    destruct Hc2 as [-> | [-> | ->]]; discriminate.
  - split; [split; [discriminate | intros [H _]; discriminate] | discriminate].
Qed.

Lemma mine_step_cases (sha256 : list Z -> list Z) (clock : N -> Z) (h : BlockHeader) (n : N) :
  match mine_step sha256 clock h n with
  | inl h' | inr h' =>
      version h' = version h /\ previous_hash h' = previous_hash h /\
      merkle_root h' = merkle_root h /\ bits h' = bits h /\ height h' = height h
  end /\
  (forall h', mine_step sha256 clock h n = inr h' -> meets_difficulty sha256 h' = true).
Proof.
  unfold mine_step.
  destruct (meets_difficulty sha256 (set_nonce h (Z.of_N n))) eqn:Hm.
  - split; [repeat split |]. intros h' H. injection H as <-. exact Hm.
  - destruct (n mod 100000 =? 0)%N; (split; [repeat split | discriminate]).
Qed.

Lemma mine_range_cases (sha256 : list Z -> list Z) (clock : N -> Z) (p : positive)
    (start : N) (h : BlockHeader) :
  match mine_range sha256 clock p start h with
  | inl h' | inr h' =>
      version h' = version h /\ previous_hash h' = previous_hash h /\
      merkle_root h' = merkle_root h /\ bits h' = bits h /\ height h' = height h
  end /\
  (forall h', mine_range sha256 clock p start h = inr h' -> meets_difficulty sha256 h' = true).
Proof.
  revert start h. induction p as [q IH | q IH |]; intros start h; cbn [mine_range].
  - pose proof (mine_step_cases sha256 clock h start) as [F1 S1].
    destruct (mine_step sha256 clock h start) as [h1 | r] eqn:E1; [| split; [exact F1 | intros h' H; injection H as <-; apply S1; reflexivity]].
    pose proof (IH (start + 1)%N h1) as [F2 S2].
    destruct (mine_range sha256 clock q (start + 1) h1) as [h2 | r] eqn:E2;
      [| split; [destruct F1 as (? & ? & ? & ? & ?); destruct F2 as (? & ? & ? & ? & ?); repeat split; congruence
                 | intros h' H; injection H as <-; apply S2; reflexivity]].
    pose proof (IH (start + 1 + Npos q)%N h2) as [F3 S3].
    split; [| exact S3].
    destruct (mine_range sha256 clock q (start + 1 + Npos q) h2);
      destruct F1 as (? & ? & ? & ? & ?); destruct F2 as (? & ? & ? & ? & ?);
      destruct F3 as (? & ? & ? & ? & ?); repeat split; congruence.
  - pose proof (IH start h) as [F1 S1].
    destruct (mine_range sha256 clock q start h) as [h1 | r] eqn:E1;
      [| split; [exact F1 | intros h' H; injection H as <-; apply S1; reflexivity]].
    pose proof (IH (start + Npos q)%N h1) as [F2 S2].
    split; [| exact S2].
    destruct (mine_range sha256 clock q (start + Npos q) h1);
      destruct F1 as (? & ? & ? & ? & ?); destruct F2 as (? & ? & ? & ? & ?);
      repeat split; congruence.
  - apply mine_step_cases.
Qed.

(** [Block::mine] only moves the nonce and timestamp: the mined block
    keeps the transactions, version, previous hash, Merkle root, bits
    and height; it either succeeds, with a header that meets the
    difficulty, or fails with [Consensus("Failed to find valid nonce")].
    So mining a fresh block and validating it succeeds exactly when
    every transaction has inputs and outputs. *)
Theorem block_mine_outcome (sha256 : list Z -> list Z) (clock : N -> Z) (b : Block) :
  transactions (fst (Block_mine sha256 clock b)) = transactions b /\
  version (header (fst (Block_mine sha256 clock b))) = version (header b) /\
  previous_hash (header (fst (Block_mine sha256 clock b))) = previous_hash (header b) /\
  merkle_root (header (fst (Block_mine sha256 clock b))) = merkle_root (header b) /\
  bits (header (fst (Block_mine sha256 clock b))) = bits (header b) /\
  height (header (fst (Block_mine sha256 clock b))) = height (header b) /\
  (snd (Block_mine sha256 clock b) = Ok tt /\
   meets_difficulty sha256 (header (fst (Block_mine sha256 clock b))) = true /\
   (merkle_root (header b) = calculate_merkle_root sha256 (transactions b) ->
    (Block_validate sha256 (fst (Block_mine sha256 clock b)) = Ok tt <->
     Forall (fun tx => ntx_inputs tx <> [] /\ ntx_outputs tx <> []) (transactions b)))
   \/ snd (Block_mine sha256 clock b) = Err (Consensus "Failed to find valid nonce")).
Proof.
  unfold Block_mine. unfold MAX_NONCE, u64_modulus.
  match goal with |- context [match ?x with N0 => _ | Npos _ => _ end] =>
    destruct x as [|p] eqn:Ep; [discriminate |] end.
  pose proof (mine_range_cases sha256 clock p 0 (header b)) as [F S].
  destruct (mine_range sha256 clock p 0 (header b)) as [h' | h'];
    cbn [fst snd header transactions]; destruct F as (F1 & F2 & F3 & F4 & F5);
    repeat split; try assumption; [right; reflexivity |].
  left. split; [reflexivity |]. assert (Hm : meets_difficulty sha256 h' = true) by (apply S; reflexivity).
  split; [exact Hm |]. intros Hroot.
  unfold Block_validate. cbn [header transactions]. rewrite Hm. cbn [negb].
  rewrite bool_decide_eq_true_2 by congruence. cbn [negb].
  apply check_transactions_spec.
Qed.

(** [NockchainTransaction::new] builds a transaction with no inputs and
    no outputs, so a block containing one never validates: it fails with
    a [BlockValidation] error. *)
Theorem block_with_new_transaction_invalid (sha256 : list Z -> list Z) (b : Block)
    (data : list Z) (now : Z) :
  In (NockchainTransaction_new sha256 data now) (transactions b) ->
  exists msg, Block_validate sha256 b = Err (BlockValidation msg).
Proof.
  intros Hin. unfold Block_validate.
  destruct (negb (meets_difficulty sha256 (header b))); [eauto |].
  destruct (negb (bool_decide _)); [eauto |].
  destruct (check_transactions_spec (transactions b)) as [Hc1 [Hok | [-> | ->]]]; [| eauto | eauto].
  exfalso. apply Hc1 in Hok. rewrite Forall_forall in Hok.
  destruct (Hok _ (proj2 (list_elem_of_In _ _) Hin)) as [Hi _]. apply Hi. reflexivity.
Qed.

Lemma block_with_new_transaction_invalid_witness :
  In (NockchainTransaction_new zero_sha256 [1; 2] 5)
    (transactions (Block_new zero_sha256 (repeat 0 32)
       [NockchainTransaction_new zero_sha256 [1; 2] 5] 1 0x1d00ffff 5)) /\
  exists msg, Block_validate zero_sha256 (Block_new zero_sha256 (repeat 0 32)
       [NockchainTransaction_new zero_sha256 [1; 2] 5] 1 0x1d00ffff 5) = Err (BlockValidation msg).
Proof.
  assert (H : In (NockchainTransaction_new zero_sha256 [1; 2] 5)
    (transactions (Block_new zero_sha256 (repeat 0 32)
       [NockchainTransaction_new zero_sha256 [1; 2] 5] 1 0x1d00ffff 5))) by (left; reflexivity).
  split; [exact H |].
  exact (block_with_new_transaction_invalid zero_sha256 _ [1; 2] 5 H).
Defined.

(* ------------------------------------------------------------------ *)
(** ** Addresses from raw bytes *)

(** [Address::from_bytes] keeps the first 32 bytes, zero-padded to 32,
    and such an address survives [to_string] then [from_string]. *)
Theorem from_bytes_string_roundtrip (bytes : list Z) :
  Forall is_byte bytes ->
  List.length (public_key (from_bytes bytes)) = 32%nat /\
  Address_from_string (Address_to_string (from_bytes bytes)) = Ok (from_bytes bytes).
Proof.
  intros Hb.
  assert (Hl : List.length (public_key (from_bytes bytes)) = 32%nat) by apply pad32_length.
  split; [exact Hl |].
  unfold Address_from_string, Address_to_string.
  rewrite bs58_roundtrip.
  - rewrite Hl. reflexivity.
  - unfold from_bytes, pad32. cbn [public_key]. apply Forall_app. split.
    + apply Forall_take. exact Hb.
    + apply zeros_bytes.
Qed.

Lemma from_bytes_string_roundtrip_witness :
  Forall is_byte [7; 0; 255] /\
  List.length (public_key (from_bytes [7; 0; 255])) = 32%nat /\
  Address_from_string (Address_to_string (from_bytes [7; 0; 255])) = Ok (from_bytes [7; 0; 255]).
Proof.
  assert (H : Forall is_byte [7; 0; 255]) by (repeat constructor; unfold is_byte; lia).
  split; [exact H |]. exact (from_bytes_string_roundtrip _ H).
Defined.

(** The Nockchain address of a key pair built from a secret (by
    [from_secret_bytes], hence by [import_key], [import_nock_key] and
    [import_nockchain_keys]) is always set, and
    [nockchain_address()] returns ["nock_"] followed by the base58
    string of the key pair's [Address]. *)
Theorem keypair_nockchain_address_of_secret (ed25519_public : list Z -> list Z)
    (secret : list Z) :
  is_Some (nockchain_address (keypair_of_secret ed25519_public secret)) /\
  keypair_nockchain_address (keypair_of_secret ed25519_public secret) =
    ("nock_" +:+ Address_to_string (kp_address (keypair_of_secret ed25519_public secret)))%string.
Proof. split; [eexists; reflexivity | reflexivity]. Qed.

(** [verify_signatures] checks no signature: once any byte string has
    been added with [add_signature], it returns [Ok(true)] for every key
    manager; on a transaction without signatures it returns
    [Ok(false)]. *)
Theorem verify_signatures_accepts_any (tx : NockchainTransaction) (signature : list Z)
    (km : NockchainKeyManager) :
  verify_signatures (add_signature tx signature) km = Ok true /\
  (signatures tx = [] -> verify_signatures tx km = Ok false).
Proof.
  unfold verify_signatures, add_signature. cbn [signatures]. split.
  - rewrite bool_decide_eq_false_2; [reflexivity |].
    intros H. apply app_eq_nil in H as [_ H]. discriminate.
  - intros ->. reflexivity.
Qed.
